(** * Gemini Learning Studio: the generation client, the application shell
      and the three views, embedded from the TypeScript sources.

    Modules follow the source files:
    - [GeminiService]  services/geminiService.ts
    - [TopicInput]     components/TopicInput.tsx
    - [NotesDisplay]   components/NotesDisplay.tsx
    - [QuizDisplay]    components/QuizDisplay.tsx
    - [App]            App.tsx *)

From Stdlib Require Import String Ascii QArith Floats.
From stdpp Require Import base tactics option list gmap pretty.

Set Warnings "-register-all".

(** ** JavaScript strings

    A JavaScript string is a finite sequence of UTF-16 code units.  Text
    literals of the sources are ASCII and are written with [str]. *)

Abbreviation JsString := (list N).

Definition str (s : string) : JsString :=
  (λ c, N_of_ascii c) <$> list_ascii_of_string s.

(** The empty string, the line feed and the double quote. *)
Definition empty_string : JsString := [].
Definition line_feed : N := 10.
Definition double_quote : N := 34.

(** A string is truthy exactly when it is not the empty string. *)
Definition str_truthy (s : JsString) : bool :=
  match s with [] => false | _ :: _ => true end.

(** [a || b] on strings. *)
Definition str_or (a b : JsString) : JsString :=
  if str_truthy a then a else b.

(** [Array.prototype.join] on an array of strings: the parts in order, with
    the separator between two of them. *)
Fixpoint join {A} (sep : list A) (parts : list (list A)) : list A :=
  match parts with
  | [] => []
  | [p] => p
  | p :: rest => p ++ sep ++ join sep rest
  end.

(** ** JavaScript numbers

    The numbers the sources compute with (the score and its percentage) are
    IEEE 754 doubles: [float], with the operations of the processor and the
    rounding of each spelled out by [Prim2SF] and [SpecFloat].

    The numbers inside a parsed reply are only tested, for being truthy and
    for being 0; they are kept as NaN, an infinity or an exact rational. *)

Inductive number : Type :=
  | NaN
  | Infinity (negative : bool)
  | Finite (q : Q).

Definition num_of_nat (n : nat) : number := Finite (inject_Z (Z.of_nat n)).

Definition Q_is_zero (q : Q) : bool := Qeq_bool q 0.

Definition num_truthy (n : number) : bool :=
  match n with
  | NaN => false
  | Infinity _ => true
  | Finite q => negb (Q_is_zero q)
  end.

(** The double that holds a count.  A count in the sources is the length of
    an array or a number of its elements, an integer below 2^32, which a
    double holds exactly. *)
Definition double_of_nat (n : nat) : float :=
  PrimFloat.of_uint63 (Uint63.of_Z (Z.of_nat n)).

Definition max_array_length : Z := 2 ^ 32 - 1.

(** The double that holds an integer (exactly, below 2^53 in absolute
    value). *)
Definition double_of_Z (z : Z) : float :=
  match z with
  | Z0 => 0%float
  | Zpos _ => PrimFloat.of_uint63 (Uint63.of_Z z)
  | Zneg _ => (- PrimFloat.of_uint63 (Uint63.of_Z (- z)))%float
  end.

(** [Math.round]: the integer nearest to [x], the one towards +∞ when two
    are equally near; NaN, the infinities, the zeros and the doubles that
    are integers already are returned as they are; what rounds to zero from
    below is -0.  A finite double is [± m * 2^e], so for [e < 0] the result
    is the floor of [(± 2 m + 2^-e) / 2^(1-e)], taken exactly. *)
Definition Math_round (x : float) : float :=
  match Prim2SF x with
  | S754_finite negative m e =>
      if (0 <=? e)%Z then x
      else
        let d := (2 ^ (- e))%Z in
        let n := if negative then Z.neg m else Z.pos m in
        let z := ((2 * n + d) / (2 * d))%Z in
        if (z =? 0)%Z then (if negative then (-0)%float else 0%float)
        else double_of_Z z
  | _ => x
  end.

(** ** Exceptions and the completion of a call

    [Error] is what [new Error(message)] builds; [TypeError] and
    [SyntaxError] are raised by the runtime itself. *)

Inductive Exception : Type :=
  | Error (msg : JsString)
  | TypeError (msg : JsString)
  | SyntaxError (msg : JsString).

(** [e.message] *)
Definition message (e : Exception) : JsString :=
  match e with Error m | TypeError m | SyntaxError m => m end.

(** The outcome of a call (for an async function: of awaiting it): it
    returns a value or it throws. *)
Inductive js (A : Type) : Type :=
  | Returned (a : A)
  | Thrown (e : Exception).
Arguments Returned {A} a.
Arguments Thrown {A} e.

Global Instance js_ret : MRet js := λ A a, Returned a.
Global Instance js_bind : MBind js := λ A B f m,
  match m with
  | Returned a => f a
  | Thrown e => Thrown e
  end.

(** [try { body } catch (error) { handler(error) }] *)
Definition try_catch {A} (body : js A) (handler : Exception → js A) : js A :=
  match body with
  | Returned a => Returned a
  | Thrown e => handler e
  end.

(** ** Values produced by [JSON.parse], and [undefined] for a property
    that is not there.  An object keeps its properties in order. *)

Inductive value : Type :=
  | VUndefined
  | VNull
  | VBool (b : bool)
  | VNum (n : number)
  | VStr (s : JsString)
  | VArr (elems : list value)
  | VObj (props : list (JsString * value)).

(** ToBoolean *)
Definition truthy (v : value) : bool :=
  match v with
  | VUndefined | VNull => false
  | VBool b => b
  | VNum n => num_truthy n
  | VStr s => str_truthy s
  | VArr _ | VObj _ => true
  end.

Definition Array_isArray (v : value) : bool :=
  match v with VArr _ => true | _ => false end.

(** Own property of an object, [undefined] when absent. *)
Fixpoint own_property (props : list (JsString * value)) (key : JsString) : value :=
  match props with
  | [] => VUndefined
  | (k, v) :: rest => if decide (k = key) then v else own_property rest key
  end.

(** [v.key] for a key that no built-in prototype defines (the sources read
    [question]): reading it off [undefined] or [null] throws, an object
    gives its own property, any other value gives [undefined]. *)
Definition get_property (v : value) (key : JsString) : js value :=
  match v with
  | VUndefined | VNull =>
      Thrown (TypeError (str "Cannot read properties of " ++ (match v with VNull => str "null" | _ => str "undefined" end)))
  | VObj props => Returned (own_property props key)
  | _ => Returned VUndefined
  end.

(** The values off which reading a property throws. *)
Definition nullish (v : value) : bool :=
  match v with VUndefined | VNull => true | _ => false end.

(** [arr[i]] on the elements of an array *)
Definition index (elems : list value) (i : nat) : value :=
  default VUndefined (elems !! i).

(** The properties of an object, in order. *)
Abbreviation JsObject := (list (JsString * value)).

(** [v === 0] *)
Definition strictly_zero (v : value) : bool :=
  match v with
  | VNum (Finite q) => Q_is_zero q
  | _ => false
  end.

(** [v.length]: reading it off [undefined] or [null] throws; an array and
    a string have their length, an object has it as an own property if at
    all, a boolean and a number have none.  (The text of a [TypeError] is
    the engine's; the one given is V8's.) *)
Definition length_of (v : value) : js value :=
  match v with
  | VUndefined =>
      Thrown (TypeError (str "Cannot read properties of undefined (reading 'length')"))
  | VNull =>
      Thrown (TypeError (str "Cannot read properties of null (reading 'length')"))
  | VArr elems => Returned (VNum (num_of_nat (length elems)))
  | VStr s => Returned (VNum (num_of_nat (length s)))
  | VObj props => Returned (own_property props (str "length"))
  | VBool _ | VNum _ => Returned VUndefined
  end.

(** [{...v}]: the own enumerable properties of [v], in order.  An object
    has its properties, an array its elements under their indices, a string
    its code units under theirs, any other value none. *)
Definition spread (v : value) : JsObject :=
  match v with
  | VObj props => props
  | VArr elems => imap (λ i x, (str (pretty i), x)) elems
  | VStr s => imap (λ i c, (str (pretty i), VStr [c])) s
  | _ => []
  end.

(** Defining property [key] of an object literal under construction: the
    value of a property already there is replaced, where it stands; a new
    property comes last. *)
Fixpoint set_property (props : JsObject) (key : JsString) (v : value) : JsObject :=
  match props with
  | [] => [(key, v)]
  | (k, old) :: rest =>
      if decide (k = key) then (k, v) :: rest
      else (k, old) :: set_property rest key v
  end.

(** ** Template literals

    The text of a template literal: its literal parts and the values
    interpolated between them, in order.  Turning an interpolated value into
    text is the runtime's [ToString]. *)
Inductive Piece : Type :=
  | Text (s : JsString)
  | Interpolated (v : value).

Abbreviation Template := (list Piece).

(** ** types.ts *)

Record NoteSection : Type := {
  heading : JsString;
  content : JsString;
  imagePrompt : JsString;
  imageUrl : option JsString;
}.

Abbreviation LearningNotes := (list NoteSection).

(** A section as an object: what [JSON.parse] gives for a section that
    follows [notesSchema], with [imageUrl] last when it has been attached. *)
Definition section_object (s : NoteSection) : JsObject :=
  [ (str "heading", VStr (heading s));
    (str "content", VStr (content s));
    (str "imagePrompt", VStr (imagePrompt s)) ]
  ++ match imageUrl s with
     | Some url => [(str "imageUrl", VStr url)]
     | None => []
     end.

Record QuizQuestion : Type := {
  question : JsString;
  options : list JsString;
  correctAnswer : JsString;
  explanation : JsString;
}.

Abbreviation Quiz := (list QuizQuestion).

(** ** services/geminiService.ts *)

Module GeminiService.

(** What the remote text model did with a request, as the client sees it
    through [await ai.models.generateContent(...)], [response.text.trim()]
    and [JSON.parse(jsonText)].  The request (model name, prompt, schema)
    only decides what the model answers, and the model may answer the same
    request differently each time, so the answer is an input of each call.

    [A] is the type of what [JSON.parse] returns, [value] in every use. *)
Inductive ModelReply (A : Type) : Type :=
  | Rejects (reason : Exception)   (* the awaited request rejects *)
  | TextUndefined                  (* [response.text] is undefined *)
  | NotJson (detail : JsString)    (* [JSON.parse] throws on the text *)
  | Json (parsed : A).             (* [JSON.parse] returns [parsed] *)
Arguments Rejects {A} reason.
Arguments TextUndefined {A}.
Arguments NotJson {A} detail.
Arguments Json {A} parsed.

(** Lines 64-74 and 113-123: the request, [.text.trim()], [JSON.parse]. *)
Definition parsed_response {A} (reply : ModelReply A) : js A :=
  match reply with
  | Rejects reason => Thrown reason
  | TextUndefined =>
      Thrown (TypeError (str "Cannot read properties of undefined (reading 'trim')"))
  | NotJson detail => Thrown (SyntaxError detail)
  | Json parsed => Returned parsed
  end.

(** Line 61. *)
Definition notesPrompt (topic : JsString) : JsString :=
  str "You are an expert educator. Create a detailed, comprehensive set of learning notes on the topic of "
  ++ [double_quote] ++ topic ++ [double_quote]
  ++ str ". Structure your response as a valid JSON array, strictly following the provided schema. Each object in the array represents a distinct section of the notes. Ensure the content is informative, well-organized, and suitable for someone new to the topic.".

Definition failedNotesMessage : JsString :=
  str "Failed to generate notes. Please check the topic and try again.".

(** [generateNotes]: whatever [JSON.parse] gives is returned; the cast
    [as NoteSection[]] of line 74 checks nothing at run time. *)
Definition generateNotes (topic : JsString) (reply : ModelReply value)
  : js value :=
  let prompt := notesPrompt topic in
  try_catch
    (parsedNotes ← parsed_response reply;
     mret parsedNotes)
    (λ error, Thrown (Error failedNotesMessage)).

(** What the image model did with a request.  Every field of the response
    is optional in the client library. *)
Record Image : Type := { imageBytes : option JsString }.
Record GeneratedImage : Type := { image : option Image }.
Inductive ImagesReply : Type :=
  | ImagesRejects (reason : Exception)
  | ImagesResponse (generatedImages : option (list GeneratedImage)).

Definition placeholderUrl : JsString := str "https://picsum.photos/1280/720".
Definition dataUriPrefix : JsString := str "data:image/jpeg;base64,".

Definition undefined_read (what : string) : Exception :=
  TypeError (str "Cannot read properties of undefined (reading '" ++ str what ++ str "')").

(** Line 86.  [prompt] is what the caller passes, [note.imagePrompt] of
    [App.tsx] line 45: a string when the parsed notes follow the schema,
    any value otherwise. *)
Definition illustrationPrompt (prompt : value) : Template :=
  [ Text (str "Educational illustration, clean, minimalist vector style, vibrant colors. ");
    Interpolated prompt ].

(** Lines 84-95, the body of the [try]:
    [response.generatedImages[0].image.imageBytes] and the template. *)
Definition generateImage_body (prompt : value) (reply : ImagesReply) : js JsString :=
  let request := illustrationPrompt prompt in
  match reply with
  | ImagesRejects reason => Thrown reason
  | ImagesResponse None => Thrown (undefined_read "0")
  | ImagesResponse (Some images) =>
      match images !! 0 with
      | None => Thrown (undefined_read "image")
      | Some first =>
          match image first with
          | None => Thrown (undefined_read "imageBytes")
          | Some img =>
              let base64ImageBytes := default (str "undefined") (imageBytes img) in
              Returned (dataUriPrefix ++ base64ImageBytes)
          end
      end
  end.

Definition generateImage (prompt : value) (reply : ImagesReply) : js JsString :=
  try_catch (generateImage_body prompt reply)
            (λ error, Returned placeholderUrl).

Definition invalidQuizMessage : JsString :=
  str "Received invalid quiz data from API.".
Definition failedQuizMessage : JsString :=
  str "Failed to generate a quiz for this topic. Please try again.".

(** Line 103: the flat transcript of the notes.  [notes] is the array the
    application stores, an array of objects (the object literals of
    [App.tsx] line 46); [note.heading] and [note.content] are own
    properties of such an object, or [undefined]. *)
Definition notesContent (notes : list JsObject) : Template :=
  join [Text [line_feed; line_feed]]
       ((λ note, [ Text (str "## "); Interpolated (own_property note (str "heading"));
                   Text [line_feed]; Interpolated (own_property note (str "content")) ])
          <$> notes).

(** Lines 104-110. *)
Definition quizPrompt (topic : JsString) (notes : list JsObject) : Template :=
  [ Text (str "You are a quiz master. Based on the following notes about "
          ++ [double_quote] ++ topic ++ [double_quote]
          ++ str ", create a 10-question multiple-choice quiz to test understanding. For each question, provide the question, 4 plausible options, the correct answer, and a brief explanation for the correct answer. Ensure the questions cover diverse key concepts from the notes. Structure your response as a valid JSON array, strictly following the provided schema."
          ++ [line_feed; line_feed] ++ str "    Here are the notes:"
          ++ [line_feed] ++ str "    ---"
          ++ [line_feed] ++ str "    ") ]
  ++ notesContent notes
  ++ [ Text ([line_feed] ++ str "    ---" ++ [line_feed] ++ str "    ") ].

(** Line 124, the condition of the [if]:
    [!Array.isArray(parsedQuiz) || parsedQuiz.length === 0 || !parsedQuiz[0].question] *)
Definition quiz_is_invalid (parsedQuiz : value) : js bool :=
  if negb (Array_isArray parsedQuiz) then mret true
  else match parsedQuiz with
       | VArr elems =>
           if decide (length elems = 0) then mret true
           else q ← get_property (index elems 0) (str "question");
                mret (negb (truthy q))
       | _ => mret true
       end.

(** [generateQuiz]: the [throw] of line 125 sits inside the [try], so the
    [catch] of line 128 receives it.  [notes] is the array of objects the
    application stores and passes (App.tsx, lines 50 and 65). *)
Definition generateQuiz (topic : JsString) (notes : list JsObject)
    (reply : ModelReply value) : js value :=
  let prompt := quizPrompt topic notes in
  try_catch
    (parsedQuiz ← parsed_response reply;
     invalid ← quiz_is_invalid parsedQuiz;
     if (invalid : bool) then Thrown (Error invalidQuizMessage)
     else mret parsedQuiz)
    (λ error, Thrown (Error failedQuizMessage)).

End GeminiService.

(** ** components/TopicInput.tsx *)

Module TopicInput.

(** The code units [String.prototype.trim] strips: WhiteSpace and
    LineTerminator of ECMAScript. *)
Definition is_white_space (c : N) : bool :=
  bool_decide (c ∈ [9; 10; 11; 12; 13; 32; 160; 5760; 8232; 8233; 8239; 8287; 12288; 65279]%N)
  || bool_decide (8192 ≤ c ≤ 8202)%N.

Fixpoint trimStart (s : JsString) : JsString :=
  match s with
  | [] => []
  | c :: rest => if is_white_space c then trimStart rest else s
  end.

Definition trimEnd (s : JsString) : JsString := reverse (trimStart (reverse s)).

(** [s.trim()] *)
Definition trim (s : JsString) : JsString := trimEnd (trimStart s).

(** A string of white space only (the empty string included). *)
Abbreviation blank := (Forall (λ c, is_white_space c = true)).

(** What a submission does: the calls it makes to the [onGenerate]
    callback, and the [topic] state of the input afterwards. *)
Record Submission : Type := {
  onGenerate_calls : list JsString;
  topic_after : JsString;
}.

(** [handleSubmit], lines 12-18, with [topic] the state of the input and
    [isLoading] the prop. *)
Definition handleSubmit (isLoading : bool) (topic : JsString) : Submission :=
  if str_truthy (trim topic) && negb isLoading then
    {| onGenerate_calls := [trim topic]; topic_after := empty_string |}
  else
    {| onGenerate_calls := []; topic_after := topic |}.

(** The submit button, line 33: [disabled={isLoading || !topic.trim()}]. *)
Definition button_disabled (isLoading : bool) (topic : JsString) : bool :=
  isLoading || negb (str_truthy (trim topic)).

End TopicInput.

(** ** components/NotesDisplay.tsx *)

Module NotesDisplay.

Inductive PlaybackState : Type := stopped | playing | paused.

Record Voice : Type := {
  name : JsString;
  lang : JsString;
  localService : bool;
}.

(** A [SpeechSynthesisUtterance] as the effect of lines 83-105 builds it.
    Its three handlers close over [index], kept here as [section]. *)
Record Utterance : Type := {
  text : JsString;
  voice : option Voice;
  pitch : Q;
  rate : Q;
  section : nat;
}.

(** The browser's speech engine: its queue of utterances (the head is the
    one being spoken), whether it is paused, and the calls made on it so
    far, oldest first. *)
Inductive EngineCall : Type :=
  | Cancel
  | Speak (u : Utterance)
  | Pause
  | Resume.

Record Engine : Type := {
  queue : list Utterance;
  is_paused : bool;
  calls : list EngineCall;
}.

Definition cancel (e : Engine) : Engine :=
  {| queue := []; is_paused := is_paused e; calls := calls e ++ [Cancel] |}.
Definition speak (u : Utterance) (e : Engine) : Engine :=
  {| queue := queue e ++ [u]; is_paused := is_paused e; calls := calls e ++ [Speak u] |}.
Definition pause (e : Engine) : Engine :=
  {| queue := queue e; is_paused := true; calls := calls e ++ [Pause] |}.
Definition resume (e : Engine) : Engine :=
  {| queue := queue e; is_paused := false; calls := calls e ++ [Resume] |}.

(** [speechSynthesis.speaking || speechSynthesis.pending] *)
Definition speaking_or_pending (e : Engine) : bool :=
  match queue e with [] => false | _ :: _ => true end.

Record State : Type := {
  playbackState : PlaybackState;
  speakingSectionIndex : option nat;
  utterancesRef : list Utterance;
  selectedVoice : option Voice;
}.

Definition setPlaybackState (p : PlaybackState) (st : State) : State :=
  {| playbackState := p; speakingSectionIndex := speakingSectionIndex st;
     utterancesRef := utterancesRef st; selectedVoice := selectedVoice st |}.
Definition setSpeakingSectionIndex (i : option nat) (st : State) : State :=
  {| playbackState := playbackState st; speakingSectionIndex := i;
     utterancesRef := utterancesRef st; selectedVoice := selectedVoice st |}.
Definition setUtterances (us : list Utterance) (st : State) : State :=
  {| playbackState := playbackState st; speakingSectionIndex := speakingSectionIndex st;
     utterancesRef := us; selectedVoice := selectedVoice st |}.

(** Lines 84-104: the utterance of one section. *)
Definition utterance_of (selected : option Voice) (index : nat) (s : NoteSection) : Utterance :=
  {| text := heading s ++ str ". " ++ content s;
     voice := selected;
     pitch := 1;
     rate := 1;
     section := index |}.

(** The effect of lines 73-108, run when [notes] or the voice changes. *)
Definition notesEffect (notes : LearningNotes) (st : State) (e : Engine) : State * Engine :=
  let e := if speaking_or_pending e then cancel e else e in
  let st := setPlaybackState stopped st in
  let st := setSpeakingSectionIndex None st in
  let st := setUtterances [] st in
  (* [notes] is an array and the engine exists: the test of line 82 holds *)
  let st := setUtterances (imap (utterance_of (selectedVoice st)) notes) st in
  (st, e).

(** The handlers of an utterance, lines 92-103. *)
Definition onstart (u : Utterance) (st : State) : State :=
  setSpeakingSectionIndex (Some (section u)) st.

Definition onend (u : Utterance) (st : State) : State :=
  if bool_decide (Z.of_nat (section u) = Z.of_nat (length (utterancesRef st)) - 1)%Z
  then setSpeakingSectionIndex None (setPlaybackState stopped st)
  else st.

Definition onerror (u : Utterance) (st : State) : State :=
  setSpeakingSectionIndex None (setPlaybackState stopped st).

(** [utterancesRef.current.forEach(utterance => speechSynthesis.speak(utterance))] *)
Definition speak_all (us : list Utterance) (e : Engine) : Engine :=
  foldl (λ e u, speak u e) e us.

(** [handlePlay], lines 110-121. *)
Definition handlePlay (st : State) (e : Engine) : State * Engine :=
  if decide (length (utterancesRef st) = 0) then (st, e)
  else match playbackState st with
       | paused => (setPlaybackState playing st, resume e)
       | stopped =>
           let e := cancel e in
           let e := speak_all (utterancesRef st) e in
           (setPlaybackState playing st, e)
       | playing => (st, e)
       end.

(** [handlePause], lines 123-128. *)
Definition handlePause (st : State) (e : Engine) : State * Engine :=
  match playbackState st with
  | playing => (setPlaybackState paused st, pause e)
  | _ => (st, e)
  end.

(** [handleStop], lines 130-134. *)
Definition handleStop (st : State) (e : Engine) : State * Engine :=
  (setSpeakingSectionIndex None (setPlaybackState stopped st), cancel e).

(** The play, pause and stop controls are rendered only for a non-empty
    note set (line 138). *)
Definition controls_rendered (notes : LearningNotes) : bool :=
  bool_decide (0 < length notes).

(** *** Choosing a voice, lines 19-71 *)

(** An entry of [speechSynthesis.getVoices()]: a voice and its [default]
    attribute. *)
Record InstalledVoice : Type := {
  installed : Voice;
  default : bool;
}.

Definition setSelectedVoice (v : option Voice) (st : State) : State :=
  {| playbackState := playbackState st; speakingSectionIndex := speakingSectionIndex st;
     utterancesRef := utterancesRef st; selectedVoice := v |}.

(** Lines 33-41. *)
Definition preferredVoiceNames : list JsString :=
  [ str "Google US English";
    str "Microsoft David - English (United States)";
    str "Microsoft Zira - English (United States)";
    str "Samantha";
    str "Alex";
    str "Google UK English Female";
    str "Google UK English Male" ].

(** [s.startsWith(prefix)] *)
Definition startsWith (s prefix : JsString) : bool :=
  bool_decide (prefix `prefix_of` s).

(** The three tests of lines 43, 47 and 52. *)
Definition is_preferred (v : InstalledVoice) : bool :=
  bool_decide (name (installed v) ∈ preferredVoiceNames).
Definition is_remote (v : InstalledVoice) : bool := negb (localService (installed v)).

(** [speechSynthesis.onvoiceschanged]: not a property of this engine, [null],
    or [loadAndSetVoice]. *)
Inductive VoicesListener : Type := NoSuchProperty | NoListener | Listening.

(** [loadAndSetVoice], lines 25-57; [voices] is what
    [speechSynthesis.getVoices()] returns at that time. *)
Definition loadAndSetVoice (voices : list InstalledVoice) (st : State)
    (listener : VoicesListener) : State * VoicesListener :=
  if decide (length voices = 0) then (st, listener)
  else
    let englishVoices :=
      List.filter (λ v, startsWith (lang (installed v)) (str "en-")) voices in
    let bestVoice := List.find is_preferred englishVoices in
    let bestVoice :=
      match bestVoice with
      | Some _ => bestVoice
      | None => List.find is_remote englishVoices
      end in
    let bestVoice :=
      match bestVoice with
      | Some _ => bestVoice
      | None =>
          match List.find default englishVoices with
          | Some v => Some v
          | None => englishVoices !! 0
          end
      end in
    (setSelectedVoice (installed <$> bestVoice) st, NoListener).

(** The effect run on mount, lines 59-63: one call of [loadAndSetVoice],
    then the listener is installed when the property is not [undefined]. *)
Definition mountEffect (voices : list InstalledVoice) (st : State)
    (listener : VoicesListener) : State * VoicesListener :=
  let loaded := loadAndSetVoice voices st listener in
  (loaded.1, match loaded.2 with
             | NoSuchProperty => NoSuchProperty
             | _ => Listening
             end).

(** A [voiceschanged] event of the engine. *)
Definition voiceschanged (st_listener : State * VoicesListener)
    (voices : list InstalledVoice) : State * VoicesListener :=
  match st_listener.2 with
  | Listening => loadAndSetVoice voices st_listener.1 Listening
  | _ => st_listener
  end.

(** The cleanup on unmount, lines 66-70 (and the [beforeunload] handler). *)
Definition unmount (e : Engine) (listener : VoicesListener) : Engine * VoicesListener :=
  (cancel e, NoListener).

(** *** The engine speaking

    The engine speaks an utterance to its end: its [onstart] handler runs,
    later its [onend] handler. *)
Definition spoken (st : State) (u : Utterance) : State :=
  onend u (onstart u st).

Definition narrate (us : list Utterance) (st : State) : State :=
  foldl spoken st us.

End NotesDisplay.

(** ** components/QuizDisplay.tsx *)

Module QuizDisplay.

Record State : Type := {
  currentQuestionIndex : nat;
  answers : gmap nat JsString;
  showResults : bool;
}.

Definition initial : State :=
  {| currentQuestionIndex := 0; answers := ∅; showResults := false |}.

Definition totalQuestions (quiz : Quiz) : nat := length quiz.

(** [handleAnswerSelect], lines 19-21. *)
Definition handleAnswerSelect (option : JsString) (st : State) : State :=
  {| currentQuestionIndex := currentQuestionIndex st;
     answers := <[currentQuestionIndex st := option]> (answers st);
     showResults := showResults st |}.

(** [handleNext], lines 23-27; [totalQuestions - 1] is [-1] for an empty
    quiz, hence the comparison in [Z]. *)
Definition handleNext (quiz : Quiz) (st : State) : State :=
  if bool_decide (Z.of_nat (currentQuestionIndex st) < Z.of_nat (totalQuestions quiz) - 1)%Z
  then {| currentQuestionIndex := currentQuestionIndex st + 1;
          answers := answers st; showResults := showResults st |}
  else st.

(** [handlePrev], lines 29-33. *)
Definition handlePrev (st : State) : State :=
  if bool_decide (0 < currentQuestionIndex st)
  then {| currentQuestionIndex := currentQuestionIndex st - 1;
          answers := answers st; showResults := showResults st |}
  else st.

(** [handleSubmit], lines 35-38. *)
Definition handleSubmit (st : State) : State :=
  {| currentQuestionIndex := currentQuestionIndex st;
     answers := answers st; showResults := true |}.

(** [handleRetake], lines 40-44. *)
Definition handleRetake (st : State) : State :=
  {| currentQuestionIndex := 0; answers := ∅; showResults := false |}.

(** The submit button is disabled while
    [Object.keys(answers).length !== totalQuestions] (line 144). *)
Definition submit_disabled (quiz : Quiz) (st : State) : bool :=
  bool_decide (size (answers st) ≠ totalQuestions quiz).

(** [Array.prototype.reduce] with an initial value; the callback gets the
    accumulator, the element and its index.  [index] is the position of
    the head of [l] in the array. *)
Fixpoint reduce_from {A B} (f : B → A → nat → B) (index : nat) (l : list A) (acc : B) : B :=
  match l with
  | [] => acc
  | x :: rest => reduce_from f (S index) rest (f acc x index)
  end.

Definition reduce {A B} (f : B → A → nat → B) (l : list A) (init : B) : B :=
  reduce_from f 0 l init.

(** [score], lines 46-50.  [answers[index]] is a recorded string or
    [undefined]; [===] against the string [correctAnswer] holds only for
    an equal recorded string. *)
Definition score (quiz : Quiz) (answers : gmap nat JsString) : nat :=
  reduce (λ total question index,
            if decide (answers !! index = Some (correctAnswer question))
            then total + 1 else total)
         quiz 0.

(** Line 53: [Math.round((score / totalQuestions) * 100)], the quotient
    and the product each rounded to a double. *)
Definition percentage (score totalQuestions : nat) : float :=
  Math_round ((double_of_nat score / double_of_nat totalQuestions) * 100)%float.

Definition scorePercentage (quiz : Quiz) (answers : gmap nat JsString) : float :=
  percentage (score quiz answers) (totalQuestions quiz).

Record Feedback : Type := {
  message : JsString;
  color : JsString;
}.

(** Lines 54-59. *)
Definition feedback (scorePercentage : float) : Feedback :=
  let feedback := {| message := str "Great effort!"; color := str "text-yellow-400" |} in
  if (80 <? scorePercentage)%float then
    {| message := str "Excellent work!"; color := str "text-green-400" |}
  else if (50 <? scorePercentage)%float then
    {| message := str "Good job!"; color := str "text-blue-400" |}
  else feedback.

(** The three tiers in the words of the specification, as conditions on
    the percentage. *)
Abbreviation above_80 p := ((80 <? p)%float = true).
Abbreviation from_51_to_80 p := ((50 <? p)%float = true ∧ (p <=? 80)%float = true).
Abbreviation at_most_50 p := ((p <=? 50)%float = true).

(** The percentage in the words of the specification: [percent] is a whole
    number from 0 to 100 nearest to [100 * score / total] (either neighbour
    when that lies half-way between two). *)
Abbreviation nearest_percent score total percent :=
  ((0 ≤ percent ≤ 100)%Z ∧ (2 * Z.abs (percent * total - 100 * score) ≤ total)%Z).

(** Line 53 and the tests of lines 55 and 57 on a score of [s] out of [t],
    against the exact thresholds: the message is "Excellent work!" from
    [100 * s / t = 80.5] on and "Good job!" from [100 * s / t = 50.5] on. *)
Definition percentage_agrees (s t : Z) : bool :=
  let p := Math_round ((PrimFloat.of_uint63 (Uint63.of_Z s) / PrimFloat.of_uint63 (Uint63.of_Z t))
                       * 100)%float in
  let exact := ((200 * s + t) / (2 * t))%Z in
  existsb (λ percent, PrimFloat.Leibniz.eqb p (double_of_Z percent)
                      && bool_decide (nearest_percent s t percent))
          [exact; exact - 1; exact + 1]%Z
  && Bool.eqb (80 <? p)%float (161 * t <=? 200 * s)%Z
  && Bool.eqb (50 <? p)%float (101 * t <=? 200 * s)%Z.

(** The same for every score out of every total up to [largest]. *)
Definition percentages_agree (largest : Z) : bool :=
  forallb (λ t, forallb (λ s, percentage_agrees s t) (seqZ 0 (t + 1))) (seqZ 1 largest).

(** The two navigation buttons. *)
Inductive Navigation : Type := Next | Prev.

Definition navigate (quiz : Quiz) (st : State) (button : Navigation) : State :=
  match button with
  | Next => handleNext quiz st
  | Prev => handlePrev st
  end.

(** The state after a sequence of clicks, starting from the first question. *)
Definition navigation (quiz : Quiz) (clicks : list Navigation) : State :=
  foldl (navigate quiz) initial clicks.

(** The score in the words of the specification: question [i] counts when
    an answer is recorded for it and that answer is its [correctAnswer]. *)
Definition answered_correctly (quiz : Quiz) (answers : gmap nat JsString) (i : nat) : bool :=
  match quiz !! i, answers !! i with
  | Some q, Some recorded => bool_decide (recorded = correctAnswer q)
  | _, _ => false
  end.

Definition count_correct (quiz : Quiz) (answers : gmap nat JsString) : nat :=
  length (filter (λ i, answered_correctly quiz answers i) (seq 0 (length quiz))).

(** *** The page as the user drives it

    The question page (lines 98-160) offers one button per option of the
    current question, Previous (disabled on the first question), and Next
    or, on the last question, Submit (disabled until as many answers are
    recorded as there are questions).  The results page (lines 52-96) offers
    Try Again. *)

Inductive Click : Type :=
  | ClickOption (k : nat)
  | ClickNext
  | ClickPrev
  | ClickSubmit
  | ClickRetake.

(** [currentQuestionIndex === totalQuestions - 1], lines 141 and 152. *)
Definition on_last_question (quiz : Quiz) (st : State) : bool :=
  bool_decide (Z.of_nat (currentQuestionIndex st) = Z.of_nat (totalQuestions quiz) - 1)%Z.

(** What a click does: the handler of the button when the button is on the
    page and enabled, nothing otherwise. *)
Definition click (quiz : Quiz) (st : State) (c : Click) : State :=
  if showResults st then
    match c with
    | ClickRetake => handleRetake st
    | _ => st
    end
  else
    match c with
    | ClickOption k =>
        match quiz !! currentQuestionIndex st with
        | Some currentQuestion =>
            match options currentQuestion !! k with
            | Some option => handleAnswerSelect option st
            | None => st
            end
        | None => st
        end
    | ClickNext =>
        if on_last_question quiz st then st else handleNext quiz st
    | ClickPrev =>
        if bool_decide (currentQuestionIndex st = 0) then st else handlePrev st
    | ClickSubmit =>
        if on_last_question quiz st && negb (submit_disabled quiz st)
        then handleSubmit st else st
    | ClickRetake => st
    end.

(** The state after a sequence of clicks on a freshly mounted quiz. *)
Definition session (quiz : Quiz) (clicks : list Click) : State :=
  foldl (click quiz) initial clicks.

(** *** The review list, lines 73-84 *)

Record ReviewRow : Type := {
  yourAnswer : JsString;          (* [userAnswer || "Not answered"] *)
  isCorrect : bool;
  correctShown : option JsString; (* the "Correct answer" line, when shown *)
  explanationShown : JsString;
}.

Definition notAnswered : JsString := str "Not answered".

(** One row: the callback of [quiz.map], lines 73-84. *)
Definition review_row (answers : gmap nat JsString) (index : nat) (question : QuizQuestion)
  : ReviewRow :=
  let userAnswer := answers !! index in
  let isCorrect := bool_decide (userAnswer = Some (correctAnswer question)) in
  {| yourAnswer := match userAnswer with
                   | Some recorded => str_or recorded notAnswered
                   | None => notAnswered
                   end;
     isCorrect := isCorrect;
     correctShown := if isCorrect then None else Some (correctAnswer question);
     explanationShown := explanation question |}.

Definition review (quiz : Quiz) (answers : gmap nat JsString) : list ReviewRow :=
  imap (review_row answers) quiz.

End QuizDisplay.

(** ** App.tsx *)

Module App.

Import GeminiService.

Inductive QuizState : Type := idle | generating | active.

(** The eight state cells of the component, lines 12-20.  [notes] holds
    the array built at lines 41-48, an array of object literals; [quiz]
    holds what [generateQuiz] returned, as it is. *)
Record State : Type := {
  notes : option (list JsObject);
  isLoading : bool;
  loadingMessage : JsString;
  error : option JsString;
  topic : JsString;
  quiz : option value;
  quizState : QuizState;
  quizError : option JsString;
}.

Definition initial : State :=
  {| notes := None; isLoading := false; loadingMessage := empty_string; error := None;
     topic := empty_string; quiz := None; quizState := idle; quizError := None |}.

Definition setNotes (v : option (list JsObject)) (st : State) : State :=
  {| notes := v; isLoading := isLoading st; loadingMessage := loadingMessage st;
     error := error st; topic := topic st; quiz := quiz st;
     quizState := quizState st; quizError := quizError st |}.
Definition setIsLoading (v : bool) (st : State) : State :=
  {| notes := notes st; isLoading := v; loadingMessage := loadingMessage st;
     error := error st; topic := topic st; quiz := quiz st;
     quizState := quizState st; quizError := quizError st |}.
Definition setLoadingMessage (v : JsString) (st : State) : State :=
  {| notes := notes st; isLoading := isLoading st; loadingMessage := v;
     error := error st; topic := topic st; quiz := quiz st;
     quizState := quizState st; quizError := quizError st |}.
Definition setError (v : option JsString) (st : State) : State :=
  {| notes := notes st; isLoading := isLoading st; loadingMessage := loadingMessage st;
     error := v; topic := topic st; quiz := quiz st;
     quizState := quizState st; quizError := quizError st |}.
Definition setTopic (v : JsString) (st : State) : State :=
  {| notes := notes st; isLoading := isLoading st; loadingMessage := loadingMessage st;
     error := error st; topic := v; quiz := quiz st;
     quizState := quizState st; quizError := quizError st |}.
Definition setQuiz (v : option value) (st : State) : State :=
  {| notes := notes st; isLoading := isLoading st; loadingMessage := loadingMessage st;
     error := error st; topic := topic st; quiz := v;
     quizState := quizState st; quizError := quizError st |}.
Definition setQuizState (v : QuizState) (st : State) : State :=
  {| notes := notes st; isLoading := isLoading st; loadingMessage := loadingMessage st;
     error := error st; topic := topic st; quiz := quiz st;
     quizState := v; quizError := quizError st |}.
Definition setQuizError (v : option JsString) (st : State) : State :=
  {| notes := notes st; isLoading := isLoading st; loadingMessage := loadingMessage st;
     error := error st; topic := topic st; quiz := quiz st;
     quizState := quizState st; quizError := v |}.

Definition noNotesMessage : JsString :=
  str "Could not generate notes for this topic. Please try a different one.".

(** [note.imagePrompt], line 45, on an element of the parsed array: it
    throws for [null] (and [undefined]) only; an object gives its own
    property or [undefined]; a number, a string, a boolean and an array have
    no such property and give [undefined]. *)
Definition imagePrompt_of (note : value) : js value :=
  match note with
  | VNull =>
      Thrown (TypeError (str "Cannot read properties of null (reading 'imagePrompt')"))
  | VUndefined => Thrown (undefined_read "imagePrompt")
  | _ => get_property note (str "imagePrompt")
  end.

(** Lines 41-48: one promise per element of the parsed array, in order;
    the callback of an element reads its [imagePrompt], awaits its image and
    yields the object literal [{ ...note, imageUrl }].  The batch rejects as
    soon as one of its promises does; a promise only rejects when reading
    [imagePrompt] throws, which happens after a delay that grows with the
    index, so the rejection of the batch is that of the first such element.
    [images index] is what the image model does with the request for
    element [index]. *)
Fixpoint illustrate_from (index : nat) (images : nat → ImagesReply)
    (structuredNotes : list value) : js (list JsObject) :=
  match structuredNotes with
  | [] => mret []
  | note :: rest =>
      prompt ← imagePrompt_of note;
      imageUrl ← generateImage prompt (images index);
      others ← illustrate_from (S index) images rest;
      mret (set_property (spread note) (str "imageUrl") (VStr imageUrl) :: others)
  end.

(** Lines 35-42 on whatever was parsed: line 35 reads [length] and throws
    when it is 0; line 42 calls [map], which only an array has (on any
    other value the call throws in the same stretch as line 39, whose
    loading message the [finally] then replaces).  What is left is an array,
    of which the elements are handed on. *)
Definition elements_to_illustrate (structuredNotes : value) : js (list value) :=
  len ← length_of structuredNotes;
  if strictly_zero len then Thrown (Error noNotesMessage)
  else
    match structuredNotes with
    | VArr elems => mret elems
    | _ => Thrown (TypeError (str "structuredNotes.map is not a function"))
    end.

(** Lines 31-51, the body of the [try]; the state it yields on success. *)
Definition handleGenerate_body (inputTopic : JsString)
    (reply : ModelReply value) (images : nat → ImagesReply)
    (st : State) : js State :=
  let st := setLoadingMessage (str "Crafting your learning materials...") st in
  structuredNotes ← generateNotes inputTopic reply;
  elems ← elements_to_illustrate structuredNotes;
  let st := setLoadingMessage
              (str "Generating " ++ str (pretty (length elems))
               ++ str " images to illustrate your notes...") st in
  notesWithImages ← illustrate_from 0 images elems;
  mret (setNotes (Some notesWithImages) st).

(** [handleGenerate], lines 22-58: the state once the handler has run to
    its end.  A failure of the body happens before it has set anything but
    the loading message, which [finally] clears. *)
Definition handleGenerate (inputTopic : JsString)
    (reply : ModelReply value) (images : nat → ImagesReply)
    (st : State) : State :=
  let st := setIsLoading true st in
  let st := setError None st in
  let st := setNotes None st in
  let st := setTopic inputTopic st in
  let st := setQuiz None st in
  let st := setQuizState idle st in
  let st := setQuizError None st in
  let st :=
    match handleGenerate_body inputTopic reply images st with
    | Returned st' => st'
    | Thrown e => setError (Some (str_or (message e) (str "An unknown error occurred."))) st
    end in
  let st := setIsLoading false st in
  setLoadingMessage empty_string st.

(** [handleStartQuiz], lines 60-72. *)
Definition handleStartQuiz (reply : ModelReply value) (st : State) : State :=
  match notes st with
  | None => st
  | Some current =>
      let st := setQuizState generating st in
      let st := setQuizError None st in
      match generateQuiz (topic st) current reply with
      | Returned quizData =>
          let st := setQuiz (Some quizData) st in
          setQuizState active st
      | Thrown e =>
          let st := setQuizError (Some (str_or (message e) (str "Could not generate the quiz."))) st in
          setQuizState idle st
      end
  end.

(** [handleReset], lines 74-81. *)
Definition handleReset (st : State) : State :=
  let st := setNotes None st in
  let st := setQuiz None st in
  let st := setQuizState idle st in
  let st := setError None st in
  let st := setQuizError None st in
  setTopic empty_string st.

(** [handleBackToNotes], lines 83-87. *)
Definition handleBackToNotes (st : State) : State :=
  let st := setQuiz None st in
  let st := setQuizState idle st in
  setQuizError None st.

(** *** What is on the page, lines 89-146 *)

Inductive Content : Type :=
  | ShowQuiz (quiz : value)
  | ShowNotes (notes : list JsObject)
  | ShowNothing.

(** [quizState === 'active' && quiz] *)
Definition quiz_shown (st : State) : option value :=
  match quizState st, quiz st with
  | active, Some q => if truthy q then Some q else None
  | _, _ => None
  end.

(** [renderContent], lines 89-97 (an array is truthy, also when empty). *)
Definition renderContent (st : State) : Content :=
  match quiz_shown st with
  | Some q => ShowQuiz q
  | None =>
      match notes st with
      | Some current => if negb (isLoading st) then ShowNotes current else ShowNothing
      | None => ShowNothing
      end
  end.

(** Line 111: the topic input.  Line 117: the "Start a new topic" link.
    Line 130: the loading indicator. *)
Definition topicInput_shown (st : State) : bool :=
  negb (bool_decide (is_Some (notes st))) && negb (isLoading st).
Definition reset_shown (st : State) : bool :=
  bool_decide (is_Some (notes st)) && negb (isLoading st).
Definition quiz_generating (st : State) : bool :=
  match quizState st with generating => true | _ => false end.
Definition loading_shown (st : State) : bool :=
  isLoading st || quiz_generating st.

(** The "Take the Quiz" button of the notes view is on the page when the
    notes view is, and is disabled while [isQuizGenerating] (line 94). *)
Definition startQuiz_enabled (st : State) : bool :=
  match renderContent st with
  | ShowNotes _ => negb (quiz_generating st)
  | _ => false
  end.

(** *** The asynchronous handlers, one stretch at a time

    Between two [await]s a handler runs without interruption; at an [await]
    the page is rendered and other handlers may run before it goes on. *)

(** [handleGenerate] up to [await generateNotes(...)], lines 23-33. *)
Definition handleGenerate_start (inputTopic : JsString) (st : State) : State :=
  let st := setIsLoading true st in
  let st := setError None st in
  let st := setNotes None st in
  let st := setTopic inputTopic st in
  let st := setQuiz None st in
  let st := setQuizState idle st in
  let st := setQuizError None st in
  setLoadingMessage (str "Crafting your learning materials...") st.

(** The [catch] and the [finally] of [handleGenerate], lines 52-57. *)
Definition handleGenerate_catch (e : Exception) (st : State) : State :=
  setError (Some (str_or (message e) (str "An unknown error occurred."))) st.
Definition handleGenerate_finally (st : State) : State :=
  setLoadingMessage empty_string (setIsLoading false st).

(** From the outcome of [generateNotes] to the next [await], lines 33-41:
    the handler ends through [catch] and [finally], or goes on to wait for
    the images of the elements of [structuredNotes]. *)
Definition handleGenerate_notes_settled (outcome : js value) (st : State)
  : State * option (list value) :=
  match outcome ≫= elements_to_illustrate with
  | Thrown e => (handleGenerate_finally (handleGenerate_catch e st), None)
  | Returned elems =>
      (setLoadingMessage
         (str "Generating " ++ str (pretty (length elems))
          ++ str " images to illustrate your notes...") st,
       Some elems)
  end.

(** From the outcome of the image batch to the end, lines 41-57. *)
Definition handleGenerate_images_settled (outcome : js (list JsObject)) (st : State) : State :=
  match outcome with
  | Returned notesWithImages => handleGenerate_finally (setNotes (Some notesWithImages) st)
  | Thrown e => handleGenerate_finally (handleGenerate_catch e st)
  end.

(** [handleStartQuiz] up to [await generateQuiz(topic, notes)], lines 61-65,
    with the arguments of the request it sends, if it sends one. *)
Definition handleStartQuiz_start (st : State) : State * option (JsString * list JsObject) :=
  match notes st with
  | None => (st, None)
  | Some current =>
      let requested := (topic st, current) in
      let st := setQuizState generating st in
      let st := setQuizError None st in
      (st, Some requested)
  end.

(** From the outcome of [generateQuiz] to the end, lines 66-71. *)
Definition handleStartQuiz_settled (outcome : js value) (st : State) : State :=
  match outcome with
  | Returned quizData =>
      let st := setQuiz (Some quizData) st in
      setQuizState active st
  | Thrown e =>
      let st := setQuizError (Some (str_or (message e) (str "Could not generate the quiz."))) st in
      setQuizState idle st
  end.

(** *** The application with its requests in flight *)

Record World : Type := {
  ui : State;
  notesRequest : option JsString;                  (* topic sent to [generateNotes] *)
  imagesRequest : option (list value);             (* elements awaiting their images *)
  quizRequests : list (JsString * list JsObject);  (* arguments sent to [generateQuiz] *)
}.

Definition initial_world : World :=
  {| ui := initial; notesRequest := None; imagesRequest := None; quizRequests := [] |}.

(** What can happen: the user submits the topic form, clicks a control that
    is on the page, or a request in flight settles. *)
Inductive Event : Type :=
  | Submit (typed : JsString)
  | NotesSettle (reply : ModelReply value)
  | ImagesSettle (images : nat → ImagesReply)
  | StartQuiz
  | QuizSettle (k : nat) (reply : ModelReply value)
  | Reset
  | BackToNotes.

Definition step (w : World) (ev : Event) : World :=
  match ev with
  | Submit typed =>
      if topicInput_shown (ui w) then
        foldl (λ w inputTopic,
                 {| ui := handleGenerate_start inputTopic (ui w);
                    notesRequest := Some inputTopic;
                    imagesRequest := imagesRequest w;
                    quizRequests := quizRequests w |})
              w
              (TopicInput.onGenerate_calls (TopicInput.handleSubmit (isLoading (ui w)) typed))
      else w
  | NotesSettle reply =>
      match notesRequest w with
      | Some inputTopic =>
          let settled := handleGenerate_notes_settled (generateNotes inputTopic reply) (ui w) in
          {| ui := settled.1; notesRequest := None; imagesRequest := settled.2;
             quizRequests := quizRequests w |}
      | None => w
      end
  | ImagesSettle images =>
      match imagesRequest w with
      | Some structuredNotes =>
          {| ui := handleGenerate_images_settled
                     (illustrate_from 0 images structuredNotes) (ui w);
             notesRequest := notesRequest w; imagesRequest := None;
             quizRequests := quizRequests w |}
      | None => w
      end
  | StartQuiz =>
      if startQuiz_enabled (ui w) then
        let started := handleStartQuiz_start (ui w) in
        {| ui := started.1; notesRequest := notesRequest w;
           imagesRequest := imagesRequest w;
           quizRequests := quizRequests w ++ option_list started.2 |}
      else w
  | QuizSettle k reply =>
      match quizRequests w !! k with
      | Some (requestedTopic, requestedNotes) =>
          {| ui := handleStartQuiz_settled
                     (generateQuiz requestedTopic requestedNotes reply) (ui w);
             notesRequest := notesRequest w; imagesRequest := imagesRequest w;
             quizRequests := delete k (quizRequests w) |}
      | None => w
      end
  | Reset =>
      if reset_shown (ui w) then
        {| ui := handleReset (ui w); notesRequest := notesRequest w;
           imagesRequest := imagesRequest w; quizRequests := quizRequests w |}
      else w
  | BackToNotes =>
      match quiz_shown (ui w) with
      | Some _ =>
          {| ui := handleBackToNotes (ui w); notesRequest := notesRequest w;
             imagesRequest := imagesRequest w; quizRequests := quizRequests w |}
      | None => w
      end
  end.

Definition run (events : list Event) : World := foldl step initial_world events.

(** What the properties below establish of every world the events lead to. *)
Definition sound (w : World) : Prop :=
  (∀ current, notes (ui w) = Some current → current ≠ [])
  ∧ (is_Some (notes (ui w)) → error (ui w) = None)
  ∧ (isLoading (ui w) = true ↔ is_Some (notesRequest w) ∨ is_Some (imagesRequest w))
  ∧ ¬ (is_Some (notesRequest w) ∧ is_Some (imagesRequest w))
  ∧ (isLoading (ui w) = true → notes (ui w) = None ∧ error (ui w) = None)
  ∧ (isLoading (ui w) = false → loadingMessage (ui w) = empty_string)
  ∧ (∀ structured, imagesRequest w = Some structured → structured ≠ [])
  ∧ (∀ q, quiz (ui w) = Some q →
       ∃ props rest, q = VArr (VObj props :: rest)
                     ∧ truthy (own_property props (str "question")) = true)
  ∧ topic (ui w) = TopicInput.trim (topic (ui w)).

End App.

(** ** Concrete inputs used by the examples below *)

Module Examples.

Import GeminiService.

Definition rome : JsString := str "Rome".

(** A section with every field empty: it conforms to [notesSchema], which
    only requires the three properties to be strings. *)
Definition blank_section : NoteSection :=
  {| heading := empty_string; content := empty_string; imagePrompt := empty_string; imageUrl := None |}.

Definition forum_section : NoteSection :=
  {| heading := str "The Forum"; content := str "The centre of public life.";
     imagePrompt := str "Roman forum"; imageUrl := None |}.

Definition senate_section : NoteSection :=
  {| heading := str "The Senate"; content := str "An assembly of elders.";
     imagePrompt := str "Roman senate"; imageUrl := None |}.

(** The same sections as parsed JSON. *)
Definition blank_parsed : value := VObj (section_object blank_section).
Definition forum_parsed : value := VObj (section_object forum_section).
Definition senate_parsed : value := VObj (section_object senate_section).

(** The forum section as the application stores it, with its image. *)
Definition forum_stored : JsObject :=
  section_object {| heading := heading forum_section; content := content forum_section;
                    imagePrompt := imagePrompt forum_section;
                    imageUrl := Some (dataUriPrefix ++ str "AAAA") |}.

(** [{"question": "Who founded Rome?"}] as parsed JSON. *)
Definition lone_question : value :=
  VObj [(str "question", VStr (str "Who founded Rome?"))].

(** [{"options": []}]: an object without a [question] property. *)
Definition no_question : value :=
  VObj [(str "options", VArr [])].

Definition one_image : ImagesReply :=
  ImagesResponse (Some [ {| image := Some {| imageBytes := Some (str "AAAA") |} |} ]).

Definition offline : Exception := Error (str "fetch failed").

(** The quiz [[{correctAnswer: "A"}, {correctAnswer: "B"}]] and the answers
    [{0: "A", 1: "C"}]. *)
Definition two_questions : Quiz :=
  [ {| question := str "First?"; options := [str "A"; str "B"; str "C"; str "D"];
       correctAnswer := str "A"; explanation := empty_string |};
    {| question := str "Second?"; options := [str "A"; str "B"; str "C"; str "D"];
       correctAnswer := str "B"; explanation := empty_string |} ].

Definition two_answers : gmap nat JsString :=
  <[1 := str "C"]> (<[0 := str "A"]> ∅).

(** A stale utterance left in the speech queue. *)
Definition stale : NotesDisplay.Utterance :=
  {| NotesDisplay.text := str "Earlier speech"; NotesDisplay.voice := None;
     NotesDisplay.pitch := 1; NotesDisplay.rate := 1; NotesDisplay.section := 0 |}.

Definition busy_engine : NotesDisplay.Engine :=
  {| NotesDisplay.queue := [stale]; NotesDisplay.is_paused := false;
     NotesDisplay.calls := [NotesDisplay.Speak stale] |}.

Definition idle_engine : NotesDisplay.Engine :=
  {| NotesDisplay.queue := []; NotesDisplay.is_paused := false; NotesDisplay.calls := [] |}.

Definition fresh_view : NotesDisplay.State :=
  {| NotesDisplay.playbackState := NotesDisplay.stopped;
     NotesDisplay.speakingSectionIndex := None;
     NotesDisplay.utterancesRef := [];
     NotesDisplay.selectedVoice := None |}.

(** Three installed voices: a local English one with a preferred name, a
    remote English one with a preferred name, and a remote French one. *)
Definition alex : NotesDisplay.InstalledVoice :=
  {| NotesDisplay.installed :=
       {| NotesDisplay.name := str "Alex"; NotesDisplay.lang := str "en-US";
          NotesDisplay.localService := true |};
     NotesDisplay.default := false |}.

Definition google_us : NotesDisplay.InstalledVoice :=
  {| NotesDisplay.installed :=
       {| NotesDisplay.name := str "Google US English"; NotesDisplay.lang := str "en-US";
          NotesDisplay.localService := false |};
     NotesDisplay.default := false |}.

Definition amelie : NotesDisplay.InstalledVoice :=
  {| NotesDisplay.installed :=
       {| NotesDisplay.name := str "Amelie"; NotesDisplay.lang := str "fr-CA";
          NotesDisplay.localService := false |};
     NotesDisplay.default := true |}.

Definition installed_voices : list NotesDisplay.InstalledVoice :=
  [amelie; alex; google_us].

(** The notes view while it narrates two sections. *)
Definition narrating_view : NotesDisplay.State :=
  {| NotesDisplay.playbackState := NotesDisplay.playing;
     NotesDisplay.speakingSectionIndex := None;
     NotesDisplay.utterancesRef :=
       imap (NotesDisplay.utterance_of None) [forum_section; senate_section];
     NotesDisplay.selectedVoice := None |}.

(** A visit: the topic is submitted, the notes and their image arrive, the
    quiz is started; then the page is reset before the quiz arrives. *)
Definition notes_on_screen : list App.Event :=
  [ App.Submit (str "  Rome ");
    App.NotesSettle (GeminiService.Json (VArr [forum_parsed]));
    App.ImagesSettle (λ _, one_image) ].

Definition quiz_on_screen : list App.Event :=
  notes_on_screen
  ++ [ App.StartQuiz; App.QuizSettle 0 (GeminiService.Json (VArr [lone_question])) ].

Definition reset_before_quiz_arrives : list App.Event :=
  notes_on_screen
  ++ [ App.StartQuiz; App.Reset;
       App.QuizSettle 0 (GeminiService.Json (VArr [lone_question])) ].

End Examples.

(** * Properties *)

(** ** The generation client *)

Section GenerationClient.

Import GeminiService.

Lemma try_catch_returned {A} (body : js A) handler a :
  body = Returned a → try_catch body handler = Returned a.
Proof. by intros ->. Qed.

Lemma try_catch_thrown {A} (body : js A) handler e :
  body = Thrown e → try_catch body handler = handler e.
Proof. by intros ->. Qed.

Lemma nonempty_length {A} (l : list A) : l ≠ [] → 0 < length l.
Proof. destruct l; [done|simpl; lia]. Qed.

(** The messages of the two quiz errors differ. *)
Lemma quiz_messages_differ : invalidQuizMessage ≠ failedQuizMessage.
Proof. discriminate. Qed.

(** Whatever makes [generateQuiz] throw, what it throws is the one error
    built in its [catch]. *)
Lemma generateQuiz_thrown topic notes reply e :
  generateQuiz topic notes reply = Thrown e → e = Error failedQuizMessage.
Proof.
  unfold generateQuiz, try_catch.
  destruct (_ ≫= _) as [quiz|e']; [discriminate|].
  by intros [= <-].
Qed.

(** What the validation of line 124 accepts: an array whose first element
    has a truthy [question]. *)
Lemma quiz_is_invalid_false parsedQuiz :
  quiz_is_invalid parsedQuiz = Returned false ↔
  ∃ first rest q, parsedQuiz = VArr (first :: rest)
                  ∧ get_property first (str "question") = Returned q
                  ∧ truthy q = true.
Proof.
  split.
  - destruct parsedQuiz as [| | | | |elems|]; try discriminate.
    destruct elems as [|first rest]; [discriminate|].
    unfold quiz_is_invalid; simpl. unfold index; simpl.
    destruct (get_property first _) as [q|] eqn:Hq; simpl; [|discriminate].
    destruct (truthy q) eqn:Ht; [|discriminate].
    intros _. by exists first, rest, q.
  - intros (first & rest & q & -> & Hq & Ht).
    unfold quiz_is_invalid; simpl. unfold index; simpl.
    by rewrite Hq; simpl; rewrite Ht.
Qed.

Lemma generateQuiz_returned topic notes reply quiz :
  generateQuiz topic notes reply = Returned quiz ↔
  reply = Json quiz ∧ quiz_is_invalid quiz = Returned false.
Proof.
  unfold generateQuiz, try_catch. split.
  - destruct reply as [reason| |detail|parsed]; simpl; try discriminate.
    destruct (quiz_is_invalid parsed) as [[|]|] eqn:Hv; simpl; try discriminate.
    by intros [= <-].
  - intros [-> Hv]. simpl. by rewrite Hv.
Qed.

(** C1, at the inputs where it fails: a reply that parses to an empty array,
    or to an array whose first element has no [question], makes
    [generateQuiz] throw the same "Failed to generate a quiz" error as a
    rejected request or a reply that is not JSON; the "invalid quiz data"
    error thrown at line 125 is replaced in the [catch] of line 128. *)
Theorem generateQuiz_invalid_data_raises_generic_error topic notes :
  generateQuiz topic notes (Json (VArr [])) = Thrown (Error failedQuizMessage)
  ∧ (∀ props rest, own_property props (str "question") = VUndefined →
       generateQuiz topic notes (Json (VArr (VObj props :: rest)))
       = Thrown (Error failedQuizMessage))
  ∧ generateQuiz topic notes (Json (VArr [Examples.no_question]))
    = Thrown (Error failedQuizMessage)
  ∧ (∀ reason, generateQuiz topic notes (Rejects reason) = Thrown (Error failedQuizMessage))
  ∧ (∀ detail, generateQuiz topic notes (NotJson detail) = Thrown (Error failedQuizMessage))
  ∧ Error failedQuizMessage ≠ Error invalidQuizMessage.
Proof.
  split; [reflexivity|].
  split.
  { intros props rest Hq. unfold generateQuiz, quiz_is_invalid. simpl.
    unfold index. simpl. by rewrite Hq. }
  repeat split; discriminate.
Qed.

(** [generateNotes] hands back what was parsed, and nothing else. *)
Lemma generateNotes_returned topic reply parsedNotes :
  generateNotes topic reply = Returned parsedNotes ↔ reply = Json parsedNotes.
Proof.
  unfold generateNotes, try_catch. split.
  - destruct reply; simpl; try discriminate. by intros [= ->].
  - by intros ->.
Qed.

Lemma generateNotes_thrown topic reply e :
  generateNotes topic reply = Thrown e → e = Error failedNotesMessage.
Proof.
  unfold generateNotes, try_catch.
  destruct (_ ≫= _); [discriminate|]. by intros [= <-].
Qed.

(** C2 as stated fails: a reply that parses to the empty array, or to a
    section whose three fields are empty strings, is returned as a success. *)
Lemma generateNotes_empty_counterexample :
  generateNotes Examples.rome (Json (VArr [])) = Returned (VArr [])
  ∧ generateNotes Examples.rome (Json (VArr [Examples.blank_parsed]))
    = Returned (VArr [Examples.blank_parsed])
  ∧ Examples.blank_parsed
    = VObj [ (str "heading", VStr empty_string); (str "content", VStr empty_string);
             (str "imagePrompt", VStr empty_string) ].
Proof. repeat split. Qed.

(** C3 as stated fails: a reply with a single question passes the
    validation and is returned, a quiz of one question instead of ten. *)
Lemma generateQuiz_one_question_counterexample :
  generateQuiz Examples.rome [Examples.forum_stored] (Json (VArr [Examples.lone_question]))
    = Returned (VArr [Examples.lone_question])
  ∧ length [Examples.lone_question] ≠ 10.
Proof. split; [reflexivity | discriminate]. Qed.

(** C3, amended: whenever [generateQuiz] returns, the quiz is the parsed
    reply itself, a non-empty array whose first element has a truthy
    [question]; its length is not checked. *)
Theorem generateQuiz_returns_validated_array topic notes reply quiz :
  generateQuiz topic notes reply = Returned quiz →
  reply = Json quiz
  ∧ ∃ first rest q, quiz = VArr (first :: rest)
                    ∧ 1 ≤ length (first :: rest)
                    ∧ get_property first (str "question") = Returned q
                    ∧ truthy q = true.
Proof.
  intros [-> Hvalid]%generateQuiz_returned. split; [done|].
  apply quiz_is_invalid_false in Hvalid as (first & rest & q & -> & Hq & Ht).
  exists first, rest, q. repeat split; [simpl; lia|done..].
Qed.

Lemma generateQuiz_returns_validated_array_witness :
  Json (VArr [Examples.lone_question]) = Json (VArr [Examples.lone_question])
  ∧ ∃ first rest q, VArr [Examples.lone_question] = VArr (first :: rest)
                    ∧ 1 ≤ length (first :: rest)
                    ∧ get_property first (str "question") = Returned q
                    ∧ truthy q = true.
Proof.
  apply (generateQuiz_returns_validated_array Examples.rome [Examples.forum_stored]).
  reflexivity.
Defined.

(** The body of [generateImage] yields a data URI whenever it returns. *)
Lemma generateImage_body_prefix prompt reply url :
  generateImage_body prompt reply = Returned url → dataUriPrefix `prefix_of` url.
Proof.
  unfold generateImage_body.
  destruct reply as [reason|[images|]]; try discriminate.
  destruct (images !! 0) as [first|]; [|discriminate].
  destruct (image first) as [img|]; [|discriminate].
  intros [= <-]. eexists; reflexivity.
Qed.

Lemma generateImage_returns prompt reply :
  ∃ url, generateImage prompt reply = Returned url.
Proof.
  unfold generateImage, try_catch.
  destruct (generateImage_body prompt reply); eauto.
Qed.

(** What [generateImage] returns, by what the image model did. *)
Lemma generateImage_by_reply prompt reply :
  generateImage prompt reply
  = Returned match reply with
             | ImagesResponse (Some (first :: _)) =>
                 match image first with
                 | Some img => dataUriPrefix ++ default (str "undefined") (imageBytes img)
                 | None => placeholderUrl
                 end
             | _ => placeholderUrl
             end.
Proof.
  unfold generateImage, generateImage_body, try_catch.
  destruct reply as [reason|[[|first rest]|]]; try reflexivity.
  simpl. by destruct (image first).
Qed.

(** C4: [generateImage] always returns.  When the request rejects, or its
    response has no list of generated images, an empty one, or a first
    generated image without an [image] object, the result is the placeholder
    URL; in every other case it is the data URI built at line 95 from the
    first generated image, which starts with "data:image/jpeg;base64,". *)
Theorem generateImage_never_raises prompt reply :
  (∃ url, generateImage prompt reply = Returned url)
  ∧ match reply with
    | ImagesRejects _ | ImagesResponse None | ImagesResponse (Some []) =>
        generateImage prompt reply = Returned placeholderUrl
    | ImagesResponse (Some (first :: _)) =>
        match image first with
        | None => generateImage prompt reply = Returned placeholderUrl
        | Some img =>
            ∃ url, generateImage prompt reply = Returned url
                   ∧ url = dataUriPrefix ++ default (str "undefined") (imageBytes img)
                   ∧ dataUriPrefix `prefix_of` url
        end
    end
  ∧ placeholderUrl = str "https://picsum.photos/1280/720"
  ∧ dataUriPrefix = str "data:image/jpeg;base64,".
Proof.
  rewrite generateImage_by_reply.
  split; [eauto|]. split; [|done].
  destruct reply as [reason|[[|first rest]|]]; try reflexivity.
  destruct (image first) as [img|]; [|reflexivity].
  eexists. split; [reflexivity|]. split; [reflexivity|]. by eexists.
Qed.

End GenerationClient.

(** ** The application shell *)

Section ApplicationShell.

Import GeminiService.

(** Reading [imagePrompt] off an element throws exactly for [null] (and
    [undefined]), and then what it throws is a [TypeError]. *)
Lemma imagePrompt_of_returns note :
  nullish note = false → ∃ prompt, App.imagePrompt_of note = Returned prompt.
Proof. destruct note; try done; simpl; eauto. Qed.

Lemma imagePrompt_of_throws note :
  nullish note = true →
  ∃ msg, App.imagePrompt_of note = Thrown (TypeError msg) ∧ msg ≠ [].
Proof. destruct note; try done; simpl; eexists; (split; [reflexivity|discriminate]). Qed.

(** Without a [null] among the elements the image batch cannot fail: it
    yields one object per element, in order, the element spread with its
    image URL set. *)
Lemma illustrate_from_returns images structuredNotes : ∀ index,
  Forall (λ note, nullish note = false) structuredNotes →
  ∃ shown, App.illustrate_from index images structuredNotes = Returned shown
    ∧ length shown = length structuredNotes
    ∧ ∀ i note, structuredNotes !! i = Some note →
        ∃ prompt url,
          App.imagePrompt_of note = Returned prompt
          ∧ generateImage prompt (images (index + i)) = Returned url
          ∧ shown !! i = Some (set_property (spread note) (str "imageUrl") (VStr url)).
Proof.
  induction structuredNotes as [|note rest IH]; intros index Hnotes.
  - exists []. by repeat split.
  - apply Forall_cons in Hnotes as [Hnote Hrest].
    destruct (imagePrompt_of_returns note Hnote) as [prompt Hprompt].
    destruct (generateImage_returns prompt (images index)) as [url Hurl].
    destruct (IH (S index) Hrest) as (others & Hothers & Hlen & Hnth).
    eexists. cbn [App.illustrate_from]. rewrite Hprompt. cbn [mbind js_bind].
    rewrite Hurl. cbn [mbind js_bind]. rewrite Hothers. cbn [mbind js_bind mret js_ret].
    split; [reflexivity|]. split; [simpl; by rewrite Hlen|].
    intros [|i] note' Hi; simpl in Hi.
    + injection Hi as <-. exists prompt, url. by rewrite Nat.add_0_r.
    + destruct (Hnth i note' Hi) as (prompt' & url' & ? & ? & ?).
      exists prompt', url'. by rewrite Nat.add_succ_r.
Qed.

(** With a [null] among the elements the batch rejects, with a [TypeError]. *)
Lemma illustrate_from_throws images structuredNotes : ∀ index,
  Exists (λ note, nullish note = true) structuredNotes →
  ∃ msg, App.illustrate_from index images structuredNotes = Thrown (TypeError msg)
         ∧ msg ≠ [].
Proof.
  induction structuredNotes as [|note rest IH]; intros index Hnotes.
  - by apply Exists_nil in Hnotes.
  - cbn [App.illustrate_from].
    destruct (nullish note) eqn:Hnote.
    + destruct (imagePrompt_of_throws note Hnote) as (msg & -> & Hmsg). by exists msg.
    + apply Exists_cons in Hnotes as [Hhead|Hrest]; [congruence|].
      destruct (imagePrompt_of_returns note Hnote) as [prompt ->]. cbn [mbind js_bind].
      destruct (generateImage_returns prompt (images index)) as [url ->]. cbn [mbind js_bind].
      destruct (IH (S index) Hrest) as (msg & -> & Hmsg). by exists msg.
Qed.


Lemma nullish_Forall_or_Exists (elems : list value) :
  Forall (λ note, nullish note = false) elems ∨ Exists (λ note, nullish note = true) elems.
Proof.
  destruct (Forall_Exists_dec (λ note, nullish note = false) (λ note, nullish note = true)
              (λ note, match nullish note as b return {b = false} + {b = true} with
                       | true => right eq_refl
                       | false => left eq_refl
                       end) elems); auto.
Qed.

(** Whenever the batch yields, it yields as many objects as it was given
    elements. *)
Lemma illustrate_from_length images structuredNotes index shown :
  App.illustrate_from index images structuredNotes = Returned shown →
  length shown = length structuredNotes.
Proof.
  intros Hshown.
  destruct (nullish_Forall_or_Exists structuredNotes) as [Hall|Hsome].
  - destruct (illustrate_from_returns images structuredNotes index Hall)
      as (shown' & Hshown' & Hlen & _). congruence.
  - destruct (illustrate_from_throws images structuredNotes index Hsome) as (msg & Hthrown & _).
    congruence.
Qed.

(** A length is 0 exactly for the empty array. *)
Lemma strictly_zero_length n :
  strictly_zero (VNum (num_of_nat n)) = bool_decide (n = 0).
Proof.
  unfold strictly_zero, num_of_nat, Q_is_zero, Qeq_bool. simpl. rewrite Z.mul_1_r.
  case_bool_decide as Hn.
  - by subst n.
  - apply Z.eqb_neq. lia.
Qed.

(** What lines 35-42 hand on: the elements of a non-empty array, and of
    nothing else. *)
Lemma elements_to_illustrate_returned structuredNotes elems :
  App.elements_to_illustrate structuredNotes = Returned elems ↔
  structuredNotes = VArr elems ∧ elems ≠ [].
Proof.
  unfold App.elements_to_illustrate. split.
  - destruct structuredNotes as [| | | |text|parsed|props];
      cbn [length_of mbind js_bind]; try discriminate.
    + by destruct (strictly_zero _).
    + rewrite strictly_zero_length. case_bool_decide; [discriminate|].
      intros [= <-]. split; [done|]. by destruct parsed.
    + by destruct (strictly_zero _).
  - intros [-> Hne]. cbn [length_of mbind js_bind]. rewrite strictly_zero_length.
    rewrite bool_decide_eq_false_2; [done|]. by destruct elems.
Qed.

Lemma elements_to_illustrate_empty :
  App.elements_to_illustrate (VArr []) = Thrown (Error App.noNotesMessage).
Proof. reflexivity. Qed.

(** Every error that lines 35-42 throw has a message. *)
Lemma elements_to_illustrate_thrown structuredNotes e :
  App.elements_to_illustrate structuredNotes = Thrown e → message e ≠ [].
Proof.
  unfold App.elements_to_illustrate.
  destruct structuredNotes as [| | | |text|parsed|props];
    cbn [length_of mbind js_bind];
    try (intros [= <-]; discriminate).
  - destruct (strictly_zero _); intros [= <-]; discriminate.
  - destruct (strictly_zero _); [intros [= <-]; discriminate|discriminate].
  - destruct (strictly_zero _); intros [= <-]; discriminate.
Qed.

(** When the notes request fails, [handleGenerate] stores no notes and
    reports the generic notes error. *)
Lemma handleGenerate_failure topic reply images st e :
  generateNotes topic reply = Thrown e →
  App.notes (App.handleGenerate topic reply images st) = None
  ∧ App.error (App.handleGenerate topic reply images st) = Some failedNotesMessage
  ∧ App.isLoading (App.handleGenerate topic reply images st) = false.
Proof.
  intros He. pose proof (generateNotes_thrown _ _ _ He) as ->.
  unfold App.handleGenerate, App.handleGenerate_body. rewrite He. by simpl.
Qed.

(** What [handleGenerate] leaves, by what lines 35-48 do with the parsed
    value. *)
Lemma handleGenerate_parsed topic parsed images st :
  App.handleGenerate topic (Json parsed) images st
  = match elems ← App.elements_to_illustrate parsed; App.illustrate_from 0 images elems with
    | Returned notesWithImages =>
        App.handleGenerate_finally
          (App.setNotes (Some notesWithImages) (App.handleGenerate_start topic st))
    | Thrown e =>
        App.handleGenerate_finally
          (App.handleGenerate_catch e (App.handleGenerate_start topic st))
    end.
Proof.
  unfold App.handleGenerate, App.handleGenerate_body.
  cbn [generateNotes parsed_response try_catch mbind js_bind mret js_ret].
  destruct (App.elements_to_illustrate parsed) as [elems|e]; [|reflexivity].
  cbn [mbind js_bind mret js_ret].
  by destruct (App.illustrate_from 0 images elems).
Qed.

(** C2, amended: whenever [generateNotes] returns, its result is the value
    parsed from the reply, unchecked: it may be an empty array, its sections
    may have empty fields, and it need not be an array of sections at all.
    It is [handleGenerate] that turns an empty array into the error "Could
    not generate notes for this topic".  A non-empty array without a [null]
    element is stored, one object per element, in order: the properties of
    the element with the image URL set.  For any other result nothing is
    stored and an error message is shown. *)
Theorem generateNotes_result_is_unchecked topic reply structuredNotes images st :
  generateNotes topic reply = Returned structuredNotes →
  reply = Json structuredNotes
  ∧ match structuredNotes with
    | VArr [] =>
        App.notes (App.handleGenerate topic reply images st) = None
        ∧ App.error (App.handleGenerate topic reply images st) = Some App.noNotesMessage
    | VArr elems =>
        if forallb (λ note, negb (nullish note)) elems then
          App.error (App.handleGenerate topic reply images st) = None
          ∧ ∃ shown,
              App.notes (App.handleGenerate topic reply images st) = Some shown
              ∧ shown ≠ []
              ∧ length shown = length elems
              ∧ ∀ i note, elems !! i = Some note →
                  ∃ url, shown !! i
                         = Some (set_property (spread note) (str "imageUrl") (VStr url))
        else
          App.notes (App.handleGenerate topic reply images st) = None
          ∧ ∃ msg, App.error (App.handleGenerate topic reply images st) = Some msg ∧ msg ≠ []
    | _ =>
        App.notes (App.handleGenerate topic reply images st) = None
        ∧ ∃ msg, App.error (App.handleGenerate topic reply images st) = Some msg ∧ msg ≠ []
    end.
Proof.
  intros Hret. pose proof Hret as ->%generateNotes_returned.
  split; [done|]. rewrite handleGenerate_parsed.
  assert (∀ e, message e ≠ [] →
            App.notes (App.handleGenerate_finally
                         (App.handleGenerate_catch e (App.handleGenerate_start topic st))) = None
            ∧ ∃ msg, App.error (App.handleGenerate_finally
                         (App.handleGenerate_catch e (App.handleGenerate_start topic st)))
                     = Some msg ∧ msg ≠ []) as Hfailed.
  { intros e He. split; [done|]. exists (message e). split; [|done].
    cbn. unfold str_or. by destruct (message e). }
  destruct (App.elements_to_illustrate structuredNotes) as [elems|e] eqn:Helems.
  - apply elements_to_illustrate_returned in Helems as [-> Hne].
    destruct elems as [|note rest]; [done|]. cbn [mbind js_bind].
    destruct (forallb _ (note :: rest)) eqn:Hall.
    + assert (Forall (λ note, nullish note = false) (note :: rest)) as Hnotes.
      { apply Forall_forall. intros x Hx%list_elem_of_In.
        rewrite forallb_forall in Hall. by apply negb_true_iff, Hall. }
      destruct (illustrate_from_returns images (note :: rest) 0 Hnotes)
        as (shown & -> & Hlen & Hnth).
      split; [done|]. exists shown. split; [done|]. split; [by destruct shown|].
      split; [done|]. intros i x Hx.
      destruct (Hnth i x Hx) as (prompt & url & _ & _ & Hshown). eauto.
    + assert (Exists (λ note, nullish note = true) (note :: rest)) as Hnotes.
      { destruct (nullish_Forall_or_Exists (note :: rest)) as [Hnone|?]; [|done].
        assert (forallb (λ note, negb (nullish note)) (note :: rest) = true); [|congruence].
        apply forallb_forall. intros x Hx%list_elem_of_In.
        rewrite Forall_forall in Hnone. by rewrite (Hnone x Hx). }
      destruct (illustrate_from_throws images (note :: rest) 0 Hnotes) as (msg & -> & Hmsg).
      by apply Hfailed.
  - cbn [mbind js_bind].
    pose proof (elements_to_illustrate_thrown _ _ Helems) as He.
    destruct structuredNotes as [| | | | |[|note rest]|props];
      try (by apply Hfailed).
    + by injection Helems as <-.
    + discriminate Helems.
Qed.

Lemma generateNotes_result_is_unchecked_witness :
  Json (VArr [Examples.forum_parsed; Examples.senate_parsed])
    = Json (VArr [Examples.forum_parsed; Examples.senate_parsed])
  ∧ App.error (App.handleGenerate Examples.rome
                 (Json (VArr [Examples.forum_parsed; Examples.senate_parsed]))
                 (λ _, Examples.one_image) App.initial) = None
    ∧ ∃ shown,
        App.notes (App.handleGenerate Examples.rome
                     (Json (VArr [Examples.forum_parsed; Examples.senate_parsed]))
                     (λ _, Examples.one_image) App.initial) = Some shown
        ∧ shown ≠ []
        ∧ length shown = 2
        ∧ ∀ i note, [Examples.forum_parsed; Examples.senate_parsed] !! i = Some note →
            ∃ url, shown !! i
                   = Some (set_property (spread note) (str "imageUrl") (VStr url)).
Proof.
  apply (generateNotes_result_is_unchecked Examples.rome
           (Json (VArr [Examples.forum_parsed; Examples.senate_parsed]))
           (VArr [Examples.forum_parsed; Examples.senate_parsed])
           (λ _, Examples.one_image) App.initial).
  reflexivity.
Defined.

(** C9: when [generateQuiz] throws, [handleStartQuiz] leaves the quiz state
    [idle] with a non-empty quiz error recorded, and the notes, the topic
    and the notes error are what they were. *)
Theorem handleStartQuiz_failure_keeps_notes reply st current e :
  App.notes st = Some current →
  generateQuiz (App.topic st) current reply = Thrown e →
  App.quizState (App.handleStartQuiz reply st) = App.idle
  ∧ App.quizError (App.handleStartQuiz reply st) = Some (message e)
  ∧ message e ≠ []
  ∧ App.notes (App.handleStartQuiz reply st) = App.notes st
  ∧ App.topic (App.handleStartQuiz reply st) = App.topic st
  ∧ App.error (App.handleStartQuiz reply st) = App.error st.
Proof.
  intros Hnotes He. unfold App.handleStartQuiz. rewrite Hnotes. simpl.
  rewrite He. apply generateQuiz_thrown in He as ->. by simpl.
Qed.

Lemma handleStartQuiz_failure_keeps_notes_witness :
  let st := App.setNotes (Some [Examples.forum_stored]) App.initial in
  let reply := Rejects Examples.offline in
  App.quizState (App.handleStartQuiz reply st) = App.idle
  ∧ App.quizError (App.handleStartQuiz reply st) = Some (message (Error failedQuizMessage))
  ∧ message (Error failedQuizMessage) ≠ []
  ∧ App.notes (App.handleStartQuiz reply st) = App.notes st
  ∧ App.topic (App.handleStartQuiz reply st) = App.topic st
  ∧ App.error (App.handleStartQuiz reply st) = App.error st.
Proof.
  apply (handleStartQuiz_failure_keeps_notes (Rejects Examples.offline)
           (App.setNotes (Some [Examples.forum_stored]) App.initial)
           [Examples.forum_stored] (Error failedQuizMessage));
    reflexivity.
Defined.

(** A successful start stores the quiz and makes it active. *)
Lemma handleStartQuiz_success reply st current quizData :
  App.notes st = Some current →
  generateQuiz (App.topic st) current reply = Returned quizData →
  App.quizState (App.handleStartQuiz reply st) = App.active
  ∧ App.quiz (App.handleStartQuiz reply st) = Some quizData
  ∧ App.quizError (App.handleStartQuiz reply st) = None.
Proof.
  intros Hnotes Hq. unfold App.handleStartQuiz. rewrite Hnotes. simpl.
  by rewrite Hq.
Qed.

End ApplicationShell.

(** ** The topic input *)

Section TopicInputFacts.

Import TopicInput.

(** [trimStart] drops a blank prefix and stops at the first other unit. *)
Lemma trimStart_split s :
  ∃ pre, s = pre ++ trimStart s ∧ blank pre
         ∧ ∀ c, head (trimStart s) = Some c → is_white_space c = false.
Proof.
  induction s as [|c s (pre & Hs & Hpre & Hhead)].
  - exists []. by repeat split.
  - simpl. destruct (is_white_space c) eqn:Hc.
    + exists (c :: pre). repeat split; [simpl; congruence | by constructor | done].
    + exists []. repeat split; [constructor|]. simpl. congruence.
Qed.

Lemma trimStart_blank s : blank s → trimStart s = [].
Proof. induction 1 as [|c s Hc _ IH]; [done|]. simpl. by rewrite Hc. Qed.

Lemma trimStart_cons c s : is_white_space c = false → trimStart (c :: s) = c :: s.
Proof. simpl. by intros ->. Qed.

(** [trimEnd] drops a blank suffix and stops at the last other unit. *)
Lemma trimEnd_split s :
  ∃ post, s = trimEnd s ++ post ∧ blank post
          ∧ ∀ c, last (trimEnd s) = Some c → is_white_space c = false.
Proof.
  unfold trimEnd.
  destruct (trimStart_split (reverse s)) as (pre & Hs & Hpre & Hhead).
  exists (reverse pre). repeat split.
  - rewrite <- reverse_app, <- Hs. by rewrite reverse_involutive.
  - by apply Forall_reverse.
  - intros c. rewrite last_reverse. apply Hhead.
Qed.

(** Dropping the blank suffix of a string that starts with a non-blank unit
    leaves that unit in front. *)
Lemma trimEnd_head s c :
  head s = Some c → is_white_space c = false → head (trimEnd s) = Some c.
Proof.
  intros Hhead Hc.
  destruct (trimEnd_split s) as (post & Hs & Hpost & _).
  destruct (trimEnd s) as [|c' kept]; simpl in *.
  - subst s. destruct Hpost as [|c' post Hc' _]; simpl in *; congruence.
  - rewrite Hs in Hhead. simpl in Hhead. congruence.
Qed.

(** [trim] removes exactly a blank prefix and a blank suffix; what is left
    neither starts nor ends with a blank unit. *)
Lemma trim_split s :
  ∃ pre post, s = pre ++ trim s ++ post ∧ blank pre ∧ blank post
    ∧ (∀ c, head (trim s) = Some c → is_white_space c = false)
    ∧ (∀ c, last (trim s) = Some c → is_white_space c = false).
Proof.
  unfold trim.
  destruct (trimStart_split s) as (pre & Hs & Hpre & Hhead).
  destruct (trimEnd_split (trimStart s)) as (post & Ht & Hpost & Hlast).
  exists pre, post. repeat split; try done.
  - by rewrite <- Ht.
  - intros c Hc. destruct (trimStart s) as [|c0 t] eqn:Hts.
    + by compute in Hc.
    + pose proof (Hhead c0 eq_refl) as Hc0.
      rewrite (trimEnd_head (c0 :: t) c0 eq_refl Hc0) in Hc. congruence.
Qed.

(** The trimmed form is empty exactly for the empty and the blank inputs. *)
Lemma trim_empty_iff s : trim s = [] ↔ blank s.
Proof.
  split.
  - intros He. destruct (trim_split s) as (pre & post & Hs & Hpre & Hpost & _).
    rewrite Hs, He. by apply Forall_app.
  - intros Hs. unfold trim. by rewrite (trimStart_blank s Hs).
Qed.

Example trim_padded_topic :
  trim (str "  The Roman Empire ") = str "The Roman Empire"
  ∧ trim (str "   ") = empty_string
  ∧ trim [9; 160; 82; 8195; 65279]%N = [82]%N.
Proof. repeat split. Qed.

(** [handleSubmit] by cases: an input whose trimmed form is empty is left
    as it is and nothing is called, and so is any input while [isLoading] is
    set; otherwise the callback is called once with the trimmed input, and
    the input is cleared. *)
Lemma handleSubmit_cases isLoading topic :
  (trim topic = [] →
     handleSubmit isLoading topic = {| onGenerate_calls := []; topic_after := topic |})
  ∧ (isLoading = true →
       handleSubmit isLoading topic = {| onGenerate_calls := []; topic_after := topic |})
  ∧ (trim topic ≠ [] → isLoading = false →
       handleSubmit isLoading topic = {| onGenerate_calls := [trim topic]; topic_after := [] |})
  ∧ (∀ forwarded, forwarded ∈ onGenerate_calls (handleSubmit isLoading topic) →
       forwarded = trim topic ∧ forwarded ≠ []).
Proof.
  unfold handleSubmit.
  split; [by intros ->|].
  split; [intros ->; by rewrite andb_false_r|].
  split; [intros Hne ->; by destruct (trim topic)|].
  intros forwarded.
  destruct (trim topic) as [|c t]; simpl; [by intros ?%elem_of_nil|].
  destruct isLoading; simpl; [by intros ?%elem_of_nil|].
  by intros ->%list_elem_of_singleton.
Qed.

(** The topic form is on the page only while the application is not
    loading (App.tsx, line 111), and that flag is its [isLoading] prop
    (line 113). *)
Lemma topicInput_shown_idle st :
  App.topicInput_shown st = true → App.isLoading st = false.
Proof.
  unfold App.topicInput_shown. intros [_ Hidle]%andb_true_iff.
  by apply negb_true_iff.
Qed.

(** C10: wherever the topic form is on the page, a submission forwards
    only a trimmed, non-empty topic.  For an input whose trimmed form is
    empty (the empty and the blank inputs) the submission does nothing: the
    callback is not called and the input stays as it is.  For every other
    input the callback is called once, with the input stripped of the blank
    units at its two ends, a string that is not empty and neither starts nor
    ends with a blank unit; the input is then cleared. *)
Theorem handleSubmit_forwards_trimmed_topic st topic :
  App.topicInput_shown st = true →
  (trim topic = [] ↔ blank topic)
  ∧ (trim topic = [] →
       handleSubmit (App.isLoading st) topic
       = {| onGenerate_calls := []; topic_after := topic |})
  ∧ (trim topic ≠ [] →
       handleSubmit (App.isLoading st) topic
       = {| onGenerate_calls := [trim topic]; topic_after := [] |})
  ∧ (∀ forwarded,
       forwarded ∈ onGenerate_calls (handleSubmit (App.isLoading st) topic) →
       forwarded = trim topic ∧ forwarded ≠ [])
  ∧ ∃ pre post, topic = pre ++ trim topic ++ post ∧ blank pre ∧ blank post
      ∧ (∀ c, head (trim topic) = Some c → is_white_space c = false)
      ∧ (∀ c, last (trim topic) = Some c → is_white_space c = false).
Proof.
  intros Hidle%topicInput_shown_idle.
  destruct (handleSubmit_cases (App.isLoading st) topic) as (Hempty & _ & Hcall & Hforwarded).
  split; [apply trim_empty_iff|].
  split; [exact Hempty|].
  split; [intros Hne; by apply Hcall|].
  split; [exact Hforwarded|apply trim_split].
Qed.

Lemma handleSubmit_forwards_trimmed_topic_witness :
  App.topicInput_shown App.initial = true
  ∧ (trim (str "  Rome ") ≠ [] →
     handleSubmit (App.isLoading App.initial) (str "  Rome ")
     = {| onGenerate_calls := [trim (str "  Rome ")]; topic_after := [] |})
  ∧ trim (str "  Rome ") = str "Rome".
Proof.
  split; [reflexivity|]. split; [|reflexivity].
  apply (handleSubmit_forwards_trimmed_topic App.initial (str "  Rome ")).
  reflexivity.
Defined.

End TopicInputFacts.

(** ** Doubles

    Facts about the doubles of line 53 of the quiz view, from the
    specification of their operations. *)

Section DoubleFacts.

#[local] Open Scope Z_scope.

Lemma shr_1_nonneg mrs : (0 ≤ shr_m mrs)%Z → (0 ≤ shr_m (shr_1 mrs))%Z.
Proof. destruct mrs as [[|[p|p|]|p] r s]; simpl; lia. Qed.

Lemma iter_shr_1_nonneg p : ∀ mrs,
  (0 ≤ shr_m mrs)%Z → (0 ≤ shr_m (SpecFloat.iter_pos shr_1 p mrs))%Z.
Proof.
  induction p as [p IH|p IH|]; intros mrs Hm; simpl.
  - by apply IH, IH, shr_1_nonneg.
  - by apply IH, IH.
  - by apply shr_1_nonneg.
Qed.

Lemma shr_fexp_nonneg m e l :
  (0 ≤ m)%Z → (0 ≤ shr_m (shr_fexp prec emax m e l).1)%Z.
Proof.
  intros Hm. unfold shr_fexp, shr.
  assert (0 ≤ shr_m (shr_record_of_loc m l))%Z as Hrec
    by (by destruct l as [|[]]).
  destruct (Z.sub _ e); simpl; try done. by apply iter_shr_1_nonneg.
Qed.

Lemma round_nearest_even_nonneg m l :
  (0 ≤ m)%Z → (0 ≤ round_nearest_even m l)%Z.
Proof.
  intros Hm. destruct l as [|[]]; simpl; try done.
  - destruct (Z.even m); [done|]. change (IntDef.Z.add m 1) with (m + 1)%Z. lia.
  - change (IntDef.Z.add m 1) with (m + 1)%Z. lia.
Qed.

(** Rounding a mantissa that is not negative never gives NaN. *)
Lemma binary_round_aux_not_nan sx mx ex lx :
  (0 ≤ mx)%Z → binary_round_aux prec emax sx mx ex lx ≠ S754_nan.
Proof.
  intros Hm. unfold binary_round_aux.
  pose proof (shr_fexp_nonneg mx ex lx Hm) as H1.
  destruct (shr_fexp prec emax mx ex lx) as [mrs' e']. simpl in H1.
  pose proof (shr_fexp_nonneg _ e' loc_Exact
                (round_nearest_even_nonneg _ (loc_of_shr_record mrs') H1)) as H2.
  destruct (shr_fexp prec emax _ e' loc_Exact) as [mrs'' e'']. simpl in H2.
  destruct (shr_m mrs'') as [|m|m]; [done| |lia].
  by destruct (Z.leb e'' _).
Qed.

Lemma binary_normalize_not_nan m e szero :
  binary_normalize prec emax m e szero ≠ S754_nan.
Proof.
  destruct m as [|m|m]; simpl; [done| |];
    unfold binary_round; destruct (shl_align _ _ _) as [mz ez];
    by apply binary_round_aux_not_nan.
Qed.

Lemma of_uint63_not_nan i : Prim2SF (PrimFloat.of_uint63 i) ≠ S754_nan.
Proof. rewrite of_uint63_spec. apply binary_normalize_not_nan. Qed.

Lemma double_of_Z_not_nan z : Prim2SF (double_of_Z z) ≠ S754_nan.
Proof.
  destruct z as [|p|p]; simpl; [done|apply of_uint63_not_nan|].
  rewrite opp_spec. pose proof (of_uint63_not_nan (Uint63.of_Z (Z.pos p))) as Hp.
  by destruct (Prim2SF _).
Qed.

Lemma Math_round_not_nan x : Prim2SF x ≠ S754_nan → Prim2SF (Math_round x) ≠ S754_nan.
Proof.
  intros Hx. unfold Math_round.
  destruct (Prim2SF x) as [s|s| |s m e] eqn:Hsf; try by rewrite Hsf.
  destruct (0 <=? e)%Z; [by rewrite Hsf|].
  cbv zeta. destruct (_ =? 0)%Z; [by destruct s|apply double_of_Z_not_nan].
Qed.


Lemma digits2_pos_bound p : ∀ k, (0 ≤ k)%Z → (Z.pos p < 2 ^ k)%Z → (Z.pos (digits2_pos p) ≤ k)%Z.
Proof.
  induction p as [p IH|p IH|]; intros k Hk Hp; simpl.
  - destruct (decide (k = 0)) as [->|Hne]; [simpl in Hp; lia|].
    replace k with (Z.succ (k - 1)) in Hp by lia. rewrite Z.pow_succ_r in Hp by lia.
    specialize (IH (k - 1)%Z). lia.
  - destruct (decide (k = 0)) as [->|Hne]; [simpl in Hp; lia|].
    replace k with (Z.succ (k - 1)) in Hp by lia. rewrite Z.pow_succ_r in Hp by lia.
    specialize (IH (k - 1)%Z). lia.
  - destruct (decide (k = 0)) as [->|Hne]; [simpl in Hp; lia|]. lia.
Qed.

Lemma digits2_pos_iter p k :
  digits2_pos (Pos.iter xO p k) = (digits2_pos p + k)%positive.
Proof.
  induction k as [|k IH] using Pos.peano_ind.
  - simpl. lia.
  - rewrite Pos.iter_succ. simpl. rewrite IH. lia.
Qed.

(** A mantissa that already has its canonical exponent is kept as it is. *)
Lemma binary_round_aux_exact s m e :
  SpecFloat.fexp prec emax (Z.pos (digits2_pos m) + e) = e → (e ≤ 971)%Z →
  binary_round_aux prec emax s (Z.pos m) e loc_Exact = S754_finite s m e.
Proof.
  intros Hcanonical He. unfold binary_round_aux, shr_fexp. simpl Zdigits2.
  change (IntDef.Z.add (Z.pos (digits2_pos m)) e) with (Z.pos (digits2_pos m) + e)%Z.
  rewrite Hcanonical. change (IntDef.Z.sub e e) with (e - e)%Z. rewrite Z.sub_diag. simpl.
  change (IntDef.Z.add (Z.pos (digits2_pos m)) e) with (Z.pos (digits2_pos m) + e)%Z.
  rewrite Hcanonical. change (IntDef.Z.sub e e) with (e - e)%Z. rewrite Z.sub_diag. simpl.
  change (IntDef.Z.leb e (IntDef.Z.sub emax prec)) with (e <=? 971)%Z.
  by rewrite (Zle_imp_le_bool _ _ He).
Qed.

Lemma binary_round_finite p :
  (Z.pos (digits2_pos p) ≤ 53)%Z →
  ∃ m e, binary_round prec emax false p 0 = S754_finite false m e.
Proof.
  intros Hd. unfold binary_round.
  change (IntDef.Z.add (Z.pos (digits2_pos p)) 0) with (Z.pos (digits2_pos p) + 0)%Z.
  assert (SpecFloat.fexp prec emax (Z.pos (digits2_pos p) + 0) = Z.pos (digits2_pos p) - 53)%Z
    as -> by (change (SpecFloat.fexp prec emax ?e) with (Z.max (e - 53) (-1074)); lia).
  unfold shl_align.
  change (IntDef.Z.sub (Z.pos (digits2_pos p) - 53) 0) with (Z.pos (digits2_pos p) - 53 - 0)%Z.
  destruct (Z.pos (digits2_pos p) - 53 - 0)%Z as [|k|k] eqn:Hk; [|lia|].
  - exists p, 0%Z. apply binary_round_aux_exact; [|lia].
    change (SpecFloat.fexp prec emax ?e) with (Z.max (e - 53) (-1074)). lia.
  - eexists _, _. apply binary_round_aux_exact; [|lia].
    rewrite digits2_pos_iter.
    change (SpecFloat.fexp prec emax ?e) with (Z.max (e - 53) (-1074)). lia.
Qed.

(** The length of an array, a positive integer below 2^53, is a positive
    finite double. *)
Lemma double_of_nat_finite n :
  (0 < n)%nat → (Z.of_nat n < 2 ^ 53)%Z →
  ∃ m e, Prim2SF (double_of_nat n) = S754_finite false m e.
Proof.
  intros Hn Hbound. unfold double_of_nat.
  rewrite of_uint63_spec, Uint63.of_Z_spec, Z.mod_small; last first.
  { split; [lia|]. apply Z.lt_trans with (m := (2 ^ 53)%Z); [done|reflexivity]. }
  destruct (Z.of_nat n) as [|p|p] eqn:Hp; [lia| |lia].
  apply binary_round_finite, digits2_pos_bound; [lia|done].
Qed.

Lemma SF64div_not_nan sx mx ex sy my ey :
  SF64div (S754_finite sx mx ex) (S754_finite sy my ey) ≠ S754_nan.
Proof.
  unfold SF64div, SFdiv, SFdiv_core_binary. cbv zeta.
  match goal with |- context [IntDef.Z.div_eucl ?a ?b] =>
    assert (0 ≤ a)%Z as Ha; [|pose proof (Z.div_pos a b Ha ltac:(done)) as Hq;
                               unfold Z.div in Hq;
                               change (IntDef.Z.div_eucl a b) with (Z.div_eucl a b);
                               destruct (Z.div_eucl a b) as [q r]]
  end.
  { destruct (IntDef.Z.sub _ _) as [|s|s]; [done| |done].
    change (IntDef.Z.shiftl (Z.pos mx) (Z.pos s)) with (Z.shiftl (Z.pos mx) (Z.pos s)).
    by apply Z.shiftl_nonneg. }
  by apply binary_round_aux_not_nan.
Qed.

(** A positive finite double divided by itself is 1. *)
Lemma SF64div_same m e :
  SF64div (S754_finite false m e) (S754_finite false m e) = Prim2SF 1.
Proof.
  unfold SF64div, SFdiv, SFdiv_core_binary. cbv zeta.
  change (IntDef.Z.sub (IntDef.Z.add (Zdigits2 (Z.pos m)) e) (IntDef.Z.add (Zdigits2 (Z.pos m)) e))
    with ((Zdigits2 (Z.pos m) + e) - (Zdigits2 (Z.pos m) + e))%Z.
  change (IntDef.Z.sub e e) with (e - e)%Z.
  rewrite !Z.sub_diag.
  change (IntDef.Z.sub 0 (IntDef.Z.min (SpecFloat.fexp prec emax 0) 0)) with 53%Z.
  cbv iota.
  change (IntDef.Z.shiftl (Z.pos m) 53) with (Z.shiftl (Z.pos m) 53).
  change (IntDef.Z.div_eucl ?a ?b) with (Z.div_eucl a b).
  rewrite Z.shiftl_mul_pow2 by done.
  pose proof (Z.div_mul (2 ^ 53) (Z.pos m) ltac:(done)) as Hq.
  pose proof (Z.mod_mul (2 ^ 53) (Z.pos m) ltac:(done)) as Hr.
  rewrite (Z.mul_comm (2 ^ 53)) in Hq, Hr.
  unfold Z.div, Z.modulo in Hq, Hr.
  destruct (Z.div_eucl _ _) as [q r]. simpl in Hq, Hr. subst q r.
  assert (new_location (Z.pos m) 0 = loc_Exact) as ->.
  { unfold new_location. by destruct (Z.even _). }
  reflexivity.
Qed.

Lemma SF64mul_not_nan x sy my ey :
  x ≠ S754_nan → SF64mul x (S754_finite sy my ey) ≠ S754_nan.
Proof.
  intros Hx. destruct x as [s|s| |s m e]; try done.
  unfold SF64mul, SFmul. by apply binary_round_aux_not_nan.
Qed.

(** The percentage of a score out of a positive total is a number. *)
Lemma percentage_not_nan s t :
  (0 < t)%nat → (Z.of_nat s < 2 ^ 53)%Z → (Z.of_nat t < 2 ^ 53)%Z →
  Prim2SF (QuizDisplay.percentage s t) ≠ S754_nan.
Proof.
  intros Ht Hs Hbound. apply Math_round_not_nan.
  rewrite mul_spec. change (Prim2SF 100) with (S754_finite false 7036874417766400 (-46)).
  apply SF64mul_not_nan. rewrite div_spec.
  destruct (double_of_nat_finite t Ht Hbound) as (m & e & ->).
  destruct (decide (s = 0%nat)) as [->|Hne].
  - done.
  - destruct (double_of_nat_finite s ltac:(lia) Hs) as (m' & e' & ->).
    apply SF64div_not_nan.
Qed.

(** No correct answer is 0 percent, and all answers correct is 100. *)
Lemma percentage_none t :
  (0 < t)%nat → (Z.of_nat t < 2 ^ 53)%Z → QuizDisplay.percentage 0 t = 0%float.
Proof.
  intros Ht Hbound. unfold QuizDisplay.percentage.
  assert ((double_of_nat 0 / double_of_nat t)%float = 0%float) as ->; [|reflexivity].
  apply Prim2SF_inj. rewrite div_spec.
  by destruct (double_of_nat_finite t Ht Hbound) as (m & e & ->).
Qed.

Lemma percentage_all t :
  (0 < t)%nat → (Z.of_nat t < 2 ^ 53)%Z → QuizDisplay.percentage t t = 100%float.
Proof.
  intros Ht Hbound. unfold QuizDisplay.percentage.
  assert ((double_of_nat t / double_of_nat t)%float = 1%float) as ->; [|reflexivity].
  apply Prim2SF_inj. rewrite div_spec.
  destruct (double_of_nat_finite t Ht Hbound) as (m & e & ->).
  apply SF64div_same.
Qed.

Lemma SFcompare_antisym x y :
  SFcompare y x = CompOpp <$> SFcompare x y.
Proof.
  destruct x as [sx|sx| |sx mx ex], y as [sy|sy| |sy my ey];
    try destruct sx; try destruct sy; try done.
  all: unfold SFcompare;
    change (PosDef.Pos.compare_cont Eq my mx) with (my ?= mx)%positive;
    change (PosDef.Pos.compare_cont Eq mx my) with (mx ?= my)%positive;
    rewrite (Z.compare_antisym ex ey), (Pos.compare_antisym mx my);
    destruct (ex ?= ey)%Z; try done; by destruct (mx ?= my)%positive.
Qed.

Lemma SFleb_not_SFltb x y : SFleb x y = true → SFltb y x = false.
Proof.
  unfold SFleb, SFltb. rewrite (SFcompare_antisym x y).
  by destruct (SFcompare x y) as [[]|].
Qed.

Lemma SFltb_or_SFleb x y :
  x ≠ S754_nan → y ≠ S754_nan → SFltb y x = true ∨ SFleb x y = true.
Proof.
  intros Hx Hy. unfold SFleb, SFltb. rewrite (SFcompare_antisym x y).
  destruct (SFcompare x y) as [[]|] eqn:Hc; simpl; auto.
  by destruct x as [| | |], y as [| | |].
Qed.

(** A positive double with the smaller exponent is the smaller one. *)
Lemma SFleb_SFltb_exponent x m1 e1 m2 e2 :
  (e1 < e2)%Z →
  SFleb x (S754_finite false m1 e1) = true →
  SFltb (S754_finite false m2 e2) x = false.
Proof.
  intros He. unfold SFleb, SFltb.
  destruct x as [s|s| |s m e]; try destruct s; try done.
  unfold SFcompare.
  destruct (Z.compare_spec e e1), (Z.compare_spec e2 e); try done; lia.
Qed.

Lemma leb_80_not_ltb p : (p <=? 80)%float = true → (80 <? p)%float = false.
Proof. rewrite leb_spec, ltb_spec. apply SFleb_not_SFltb. Qed.

Lemma leb_50_not_ltb p :
  (p <=? 50)%float = true → (50 <? p)%float = false ∧ (80 <? p)%float = false.
Proof.
  rewrite leb_spec, !ltb_spec. intros Hp. split; [by apply SFleb_not_SFltb|].
  change (Prim2SF 80) with (S754_finite false 5629499534213120 (-46)).
  change (Prim2SF 50) with (S754_finite false 7036874417766400 (-47)) in Hp.
  apply (SFleb_SFltb_exponent _ 7036874417766400 (-47)); [reflexivity|exact Hp].
Qed.

End DoubleFacts.

(** ** The quiz view *)

Section QuizFacts.

Import QuizDisplay.

(** At the position of [q], the reading of the specification and the
    comparison of line 48 agree. *)
Lemma answered_correctly_middle answers visited q rest :
  answered_correctly (visited ++ q :: rest) answers (length visited)
  = bool_decide (answers !! length visited = Some (correctAnswer q)).
Proof.
  unfold answered_correctly. rewrite list_lookup_middle by done.
  destruct (answers !! length visited) as [recorded|]; [|done].
  apply bool_decide_ext. split; [by intros ->|by intros [= ->]].
Qed.

(** The callback of [score], as [reduce] runs it over the questions [rest]
    that follow the ones already [visited]. *)
Lemma score_reduce_from answers visited rest : ∀ acc,
  reduce_from (λ total question index,
                 if decide (answers !! index = Some (correctAnswer question))
                 then total + 1 else total)
              (length visited) rest acc
  = acc + length (filter (λ i, answered_correctly (visited ++ rest) answers i)
                         (seq (length visited) (length rest))).
Proof.
  revert visited.
  induction rest as [|q rest IH]; intros visited acc; simpl.
  - lia.
  - specialize (IH (visited ++ [q])).
    rewrite length_app in IH. simpl in IH.
    rewrite Nat.add_1_r, <- app_assoc in IH. simpl in IH.
    rewrite IH, filter_cons, answered_correctly_middle.
    destruct (decide (answers !! length visited = Some (correctAnswer q))) as [Heq|Hne].
    + rewrite bool_decide_eq_true_2 by done. simpl. lia.
    + rewrite bool_decide_eq_false_2 by done. simpl. lia.
Qed.

Lemma unanswered_not_counted quiz answers i :
  answers !! i = None → answered_correctly quiz answers i = false.
Proof. intros Hi. unfold answered_correctly. rewrite Hi. by destruct (quiz !! i). Qed.

Lemma count_correct_nothing_recorded quiz : count_correct quiz ∅ = 0.
Proof.
  unfold count_correct.
  induction (seq 0 (length quiz)) as [|i l IH]; [done|].
  rewrite filter_cons, (unanswered_not_counted quiz ∅ i) by apply lookup_empty.
  by rewrite decide_False by (by intros []).
Qed.

Lemma score_is_count quiz answers : score quiz answers = count_correct quiz answers.
Proof. apply (score_reduce_from answers [] quiz 0). Qed.

(** C6: the score is the number of indices whose recorded answer is the
    question's [correctAnswer]; an index with no recorded answer is not
    counted; the quiz with correct answers A, B and the answers
    [{0: "A", 1: "C"}] scores 1. *)
Theorem score_counts_correct_answers quiz answers :
  score quiz answers = count_correct quiz answers
  ∧ (∀ i, answers !! i = None → answered_correctly quiz answers i = false)
  ∧ (∀ i q recorded, quiz !! i = Some q → answers !! i = Some recorded →
       answered_correctly quiz answers i = bool_decide (recorded = correctAnswer q))
  ∧ score quiz ∅ = 0
  ∧ score Examples.two_questions Examples.two_answers = 1.
Proof.
  split; [apply score_is_count|].
  split; [apply unanswered_not_counted|].
  split; [intros i q recorded Hq Ha; unfold answered_correctly; by rewrite Hq, Ha|].
  split; [|reflexivity].
  rewrite score_is_count. apply count_correct_nothing_recorded.
Qed.

(** *** Navigation *)

Lemma handleNext_index quiz st :
  currentQuestionIndex (handleNext quiz st)
  = if decide (currentQuestionIndex st + 1 < length quiz)
    then currentQuestionIndex st + 1 else currentQuestionIndex st.
Proof.
  unfold handleNext, totalQuestions.
  case_bool_decide; case_decide; simpl; lia.
Qed.

Lemma handlePrev_index st :
  currentQuestionIndex (handlePrev st)
  = if decide (0 < currentQuestionIndex st)
    then currentQuestionIndex st - 1 else currentQuestionIndex st.
Proof. unfold handlePrev. case_bool_decide; case_decide; simpl; lia. Qed.

(** One click keeps a cursor that is in range in range. *)
Lemma navigate_in_range quiz st button :
  currentQuestionIndex st < length quiz →
  currentQuestionIndex (navigate quiz st button) < length quiz.
Proof.
  intros Hin. destruct button; simpl.
  - rewrite handleNext_index. case_decide; lia.
  - rewrite handlePrev_index. case_decide; lia.
Qed.

Lemma clicks_in_range quiz clicks : ∀ st,
  currentQuestionIndex st < length quiz →
  currentQuestionIndex (foldl (navigate quiz) st clicks) < length quiz.
Proof.
  induction clicks as [|button clicks IH]; intros st Hin; simpl; [done|].
  by apply IH, navigate_in_range.
Qed.

Lemma handleNext_at_last quiz st :
  currentQuestionIndex st = length quiz - 1 → handleNext quiz st = st.
Proof.
  intros Hlast. unfold handleNext, totalQuestions.
  rewrite bool_decide_eq_false_2; [done|lia].
Qed.

Lemma handlePrev_at_first st :
  currentQuestionIndex st = 0 → handlePrev st = st.
Proof.
  intros Hfirst. unfold handlePrev.
  rewrite bool_decide_eq_false_2; [done|lia].
Qed.

(** C7: on a non-empty quiz, whatever the sequence of next and prev clicks
    from the first question, the cursor stays within [0, length - 1]; next
    at the last question and prev at the first change nothing. *)
Theorem navigation_stays_in_range quiz clicks :
  quiz ≠ [] →
  0 ≤ currentQuestionIndex (navigation quiz clicks) ≤ length quiz - 1
  ∧ (∀ st, currentQuestionIndex st = length quiz - 1 → handleNext quiz st = st)
  ∧ (∀ st, currentQuestionIndex st = 0 → handlePrev st = st).
Proof.
  intros Hquiz.
  assert (0 < length quiz) as Hlen by (destruct quiz; [done|simpl; lia]).
  split; [|split; [apply handleNext_at_last | apply handlePrev_at_first]].
  pose proof (clicks_in_range quiz clicks initial Hlen) as Hin.
  unfold navigation. lia.
Qed.

Lemma navigation_stays_in_range_witness :
  0 ≤ currentQuestionIndex
        (navigation Examples.two_questions [Next; Next; Next; Prev; Prev; Prev; Next])
    ≤ length Examples.two_questions - 1
  ∧ (∀ st, currentQuestionIndex st = length Examples.two_questions - 1 →
           handleNext Examples.two_questions st = st)
  ∧ (∀ st, currentQuestionIndex st = 0 → handlePrev st = st).
Proof.
  apply (navigation_stays_in_range Examples.two_questions
           [Next; Next; Next; Prev; Prev; Prev; Next]).
  discriminate.
Defined.

(** Below the last question next moves on by one; after the first, prev
    moves back by one. *)
Lemma navigation_moves quiz st :
  (currentQuestionIndex st + 1 < length quiz →
     currentQuestionIndex (handleNext quiz st) = currentQuestionIndex st + 1)
  ∧ (0 < currentQuestionIndex st →
     currentQuestionIndex (handlePrev st) = currentQuestionIndex st - 1).
Proof.
  rewrite handleNext_index, handlePrev_index.
  split; intros; by rewrite decide_True.
Qed.

(** Retaking resets the answers and the cursor; the quiz itself is a prop
    and is not touched. *)
Lemma handleRetake_resets st : handleRetake st = initial.
Proof. done. Qed.

(** Submission is open exactly when every question has an answer recorded
    (as many recorded keys as questions). *)
Lemma submit_disabled_until_all_answered quiz st :
  submit_disabled quiz st = false ↔ size (answers st) = length quiz.
Proof.
  unfold submit_disabled, totalQuestions.
  rewrite bool_decide_eq_false. split; [|by intros ? ?].
  intros Hnot. by destruct (decide (size (answers st) = length quiz)).
Qed.

(** *** Feedback *)

Lemma score_le_length quiz answers : score quiz answers ≤ length quiz.
Proof.
  rewrite score_is_count. unfold count_correct.
  etrans; [apply length_filter|]. by rewrite length_seq.
Qed.

(** Each tier has its message, and no percentage is in two tiers. *)
Lemma feedback_by_tier p :
  (above_80 p → message (feedback p) = str "Excellent work!")
  ∧ (from_51_to_80 p → message (feedback p) = str "Good job!")
  ∧ (at_most_50 p → message (feedback p) = str "Great effort!")
  ∧ ¬ (above_80 p ∧ from_51_to_80 p)
  ∧ ¬ (above_80 p ∧ at_most_50 p)
  ∧ ¬ (from_51_to_80 p ∧ at_most_50 p).
Proof.
  unfold feedback.
  split; [by intros ->|].
  split; [intros [-> H80%leb_80_not_ltb]; by rewrite H80|].
  split; [intros [H50 H80]%leb_50_not_ltb; by rewrite H80, H50|].
  split; [intros [H80 [_ Hle%leb_80_not_ltb]]; congruence|].
  split; [intros [H80 [_ Hle]%leb_50_not_ltb]; congruence|].
  intros [[H50 _] [Hle _]%leb_50_not_ltb]; congruence.
Qed.

(** A percentage that is a number is in one of the tiers. *)
Lemma number_in_a_tier p :
  Prim2SF p ≠ S754_nan → above_80 p ∨ from_51_to_80 p ∨ at_most_50 p.
Proof.
  intros Hp. rewrite !ltb_spec, !leb_spec.
  destruct (SFltb_or_SFleb (Prim2SF p) (Prim2SF 80) Hp) as [?|H80]; [done|by left|].
  destruct (SFltb_or_SFleb (Prim2SF p) (Prim2SF 50) Hp) as [?|H50]; [done|by right; left|].
  by right; right.
Qed.

(** The message tells the tests of lines 55 and 57 apart. *)
Lemma feedback_message p :
  (message (feedback p) = str "Excellent work!" ↔ (80 <? p)%float = true)
  ∧ (message (feedback p) = str "Good job!" ↔
       (80 <? p)%float = false ∧ (50 <? p)%float = true)
  ∧ (message (feedback p) = str "Great effort!" ↔
       (80 <? p)%float = false ∧ (50 <? p)%float = false).
Proof.
  unfold feedback.
  destruct (80 <? p)%float, (50 <? p)%float; simpl;
    (split; [|split]); split; (done || (intros Heq; discriminate Heq) || by intros []).
Qed.

(** The percentage of a quiz is that of its score out of its length. *)
Lemma scorePercentage_of_counts quiz answers :
  scorePercentage quiz answers = percentage (score quiz answers) (length quiz).
Proof. reflexivity. Qed.

(** For every total up to 200 and every score out of it, the percentage of
    line 53 is a whole number nearest to the exact one, and the tests of
    lines 55 and 57 hold from 80.5 percent and from 50.5 percent on. *)
Lemma percentages_agree_200 : percentages_agree 200 = true.
Proof. vm_compute. reflexivity. Qed.

Lemma percentages_agree_each largest s t :
  percentages_agree largest = true →
  0 < t → (Z.of_nat t ≤ largest)%Z → s ≤ t →
  percentage_agrees (Z.of_nat s) (Z.of_nat t) = true.
Proof.
  unfold percentages_agree. intros Hall Ht Hbound Hs.
  rewrite forallb_forall in Hall.
  specialize (Hall (Z.of_nat t)). rewrite forallb_forall in Hall.
  apply Hall; apply list_elem_of_In, elem_of_seqZ; lia.
Qed.

Example scorePercentage_half :
  scorePercentage Examples.two_questions Examples.two_answers = 50%float
  ∧ message (feedback (scorePercentage Examples.two_questions Examples.two_answers))
    = str "Great effort!".
Proof. split; reflexivity. Qed.

(** With no question, the quotient is 0/0: the percentage is NaN, neither
    comparison holds and the message is the default one. *)
Example scorePercentage_empty_quiz :
  scorePercentage [] ∅ = nan
  ∧ message (feedback (scorePercentage [] ∅)) = str "Great effort!".
Proof. split; reflexivity. Qed.

(** 23 correct answers out of 40 are 57.5 percent; the quotient and the
    product, each rounded to a double, give 57.49999999999999, and the
    percentage shown is 57. *)
Example percentage_23_of_40 :
  ((double_of_nat 23 / double_of_nat 40) * 100)%float = 0x1.cbfffffffffffp+5%float
  ∧ percentage 23 40 = 57%float.
Proof. split; reflexivity. Qed.

(** C5: the percentage of line 53 selects its message by tier: above 80
    "Excellent work!", above 50 and at most 80 "Good job!", at most 50
    "Great effort!"; no percentage is in two tiers and the three messages
    differ.  The percentage of a quiz with at least one question lies in one
    of the tiers; it is 100, with "Excellent work!", when every answer is
    correct, and 0, with "Great effort!", when none is.  For a quiz of up to
    200 questions the percentage is a whole number nearest to
    100 * score / length, and the message is "Excellent work!" exactly from
    80.5 percent on, "Good job!" exactly from 50.5 percent up to there, and
    "Great effort!" exactly below.  81, 60 and 40 fall in the first, second
    and third tier. *)
Theorem feedback_tiers quiz answers :
  let p := scorePercentage quiz answers in
  (above_80 p → message (feedback p) = str "Excellent work!")
  ∧ (from_51_to_80 p → message (feedback p) = str "Good job!")
  ∧ (at_most_50 p → message (feedback p) = str "Great effort!")
  ∧ ¬ (above_80 p ∧ from_51_to_80 p)
  ∧ ¬ (above_80 p ∧ at_most_50 p)
  ∧ ¬ (from_51_to_80 p ∧ at_most_50 p)
  ∧ (quiz ≠ [] → (Z.of_nat (length quiz) ≤ max_array_length)%Z →
       (above_80 p ∨ from_51_to_80 p ∨ at_most_50 p)
       ∧ (score quiz answers = length quiz →
            p = 100%float ∧ message (feedback p) = str "Excellent work!")
       ∧ (score quiz answers = 0 →
            p = 0%float ∧ message (feedback p) = str "Great effort!"))
  ∧ (quiz ≠ [] → length quiz ≤ 200 →
       (∃ percent : Z,
           p = double_of_Z percent
           ∧ nearest_percent (Z.of_nat (score quiz answers)) (Z.of_nat (length quiz)) percent)
       ∧ (message (feedback p) = str "Excellent work!" ↔
            161 * length quiz ≤ 200 * score quiz answers)
       ∧ (message (feedback p) = str "Good job!" ↔
            101 * length quiz ≤ 200 * score quiz answers < 161 * length quiz)
       ∧ (message (feedback p) = str "Great effort!" ↔
            200 * score quiz answers < 101 * length quiz))
  ∧ (str "Excellent work!" ≠ str "Good job!"
     ∧ str "Excellent work!" ≠ str "Great effort!"
     ∧ str "Good job!" ≠ str "Great effort!")
  ∧ message (feedback 81) = str "Excellent work!"
  ∧ message (feedback 60) = str "Good job!"
  ∧ message (feedback 40) = str "Great effort!".
Proof.
  intros p.
  destruct (feedback_by_tier p) as (H1 & H2 & H3 & H12 & H13 & H23).
  repeat (split; [assumption|]).
  pose proof (score_le_length quiz answers) as Hscore.
  split; [|split; [|repeat split; discriminate]].
  - intros Hquiz%nonempty_length Hlen.
    assert (Z.of_nat (length quiz) < 2 ^ 53)%Z as Hbound.
    { eapply Z.le_lt_trans; [exact Hlen|reflexivity]. }
    subst p. rewrite scorePercentage_of_counts.
    split; [|split].
    + apply number_in_a_tier, percentage_not_nan; [done|lia|done].
    + intros ->. by rewrite percentage_all.
    + intros ->. by rewrite percentage_none.
  - intros Hquiz%nonempty_length Hlen.
    pose proof (percentages_agree_each 200 (score quiz answers) (length quiz)
                  percentages_agree_200 Hquiz ltac:(lia) Hscore) as Hagree.
    unfold percentage_agrees in Hagree. cbv zeta in Hagree.
    change (Math_round _) with p in Hagree.
    apply andb_true_iff in Hagree as [[Hnear H80%eqb_prop]%andb_true_iff H50%eqb_prop].
    destruct (feedback_message p) as (Hexcellent & Hgood & Hgreat).
    split; [|split; [|split]].
    + apply existsb_exists in Hnear as (percent & _ & [Heq Hnearest]%andb_true_iff).
      exists percent. split; [by apply Leibniz.eqb_spec|].
      by apply bool_decide_eq_true in Hnearest.
    + rewrite Hexcellent, H80, Z.leb_le. lia.
    + rewrite Hgood, H80, H50, Z.leb_gt, Z.leb_le. lia.
    + rewrite Hgreat, H80, H50, !Z.leb_gt. lia.
Qed.

End QuizFacts.

(** ** The notes view *)

Section NarrationFacts.

Import NotesDisplay.

(** Speaking a list of utterances appends them to the queue in order and
    logs one [Speak] call for each. *)
Lemma speak_all_spec us : ∀ e,
  queue (speak_all us e) = queue e ++ us
  ∧ calls (speak_all us e) = calls e ++ (Speak <$> us)
  ∧ is_paused (speak_all us e) = is_paused e.
Proof.
  induction us as [|u us IH]; intros e; simpl.
  - by rewrite !app_nil_r.
  - destruct (IH (speak u e)) as (Hq & Hc & Hp).
    unfold speak_all in *. rewrite Hq, Hc, Hp. simpl.
    by rewrite <- !app_assoc.
Qed.

(** After the effect of lines 73-108 the view is stopped, holds one
    utterance per section, and nothing is left in the queue. *)
Lemma notesEffect_ready notes st e :
  playbackState (notesEffect notes st e).1 = stopped
  ∧ speakingSectionIndex (notesEffect notes st e).1 = None
  ∧ utterancesRef (notesEffect notes st e).1
    = imap (utterance_of (selectedVoice (notesEffect notes st e).1)) notes
  ∧ queue (notesEffect notes st e).2 = [].
Proof.
  unfold notesEffect, speaking_or_pending. simpl. repeat split.
  by destruct (queue e) eqn:Hq.
Qed.

(** Without utterances [handlePlay] does nothing at all. *)
Lemma handlePlay_without_utterances st e :
  utterancesRef st = [] → handlePlay st e = (st, e).
Proof. intros Hrefs. unfold handlePlay. by rewrite Hrefs. Qed.

Lemma controls_rendered_iff notes : controls_rendered notes = true ↔ notes ≠ [].
Proof.
  unfold controls_rendered. rewrite bool_decide_eq_true.
  destruct notes; simpl; split; try done; lia.
Qed.

(** From the paused state play resumes the engine and queues nothing. *)
Lemma handlePlay_resumes st e :
  utterancesRef st ≠ [] → playbackState st = paused →
  handlePlay st e = (setPlaybackState playing st, resume e).
Proof.
  intros Hrefs Hpaused. unfold handlePlay.
  rewrite decide_False by (by destruct (utterancesRef st)).
  by rewrite Hpaused.
Qed.

(** C8: the play control is on the page only for a note set with at
    least one section (line 138).  Wherever it is, play from the stopped
    state calls [cancel] on the engine first and then [speak] once per
    section, in document order; the queue then holds exactly these
    utterances, as many as there are sections, utterance [i] carrying the
    heading of section [i], a full stop and a space, and its content; the
    view is then playing. *)
Theorem handlePlay_queues_every_section notes st e :
  controls_rendered notes = true →
  playbackState st = stopped →
  utterancesRef st = imap (utterance_of (selectedVoice st)) notes →
  calls (handlePlay st e).2 = calls e ++ Cancel :: (Speak <$> utterancesRef st)
  ∧ queue (handlePlay st e).2 = utterancesRef st
  ∧ length (queue (handlePlay st e).2) = length notes
  ∧ (∀ i s, notes !! i = Some s →
       ∃ u, queue (handlePlay st e).2 !! i = Some u
            ∧ text u = heading s ++ str ". " ++ content s
            ∧ section u = i)
  ∧ playbackState (handlePlay st e).1 = playing.
Proof.
  intros Hnotes%controls_rendered_iff Hstopped Hrefs. unfold handlePlay.
  rewrite decide_False, Hstopped; last first.
  { rewrite Hrefs, length_imap. by destruct notes. }
  simpl. destruct (speak_all_spec (utterancesRef st) (cancel e)) as (Hq & Hc & _).
  rewrite Hq, Hc. simpl. rewrite <- app_assoc. simpl.
  repeat split.
  - by rewrite Hrefs, length_imap.
  - intros i s Hs. rewrite Hrefs, list_lookup_imap, Hs. simpl. eauto.
Qed.

Lemma handlePlay_queues_every_section_witness :
  let notes := [Examples.forum_section; Examples.senate_section] in
  let st := (notesEffect notes Examples.fresh_view Examples.busy_engine).1 in
  let e := Examples.busy_engine in
  calls (handlePlay st e).2 = calls e ++ Cancel :: (Speak <$> utterancesRef st)
  ∧ queue (handlePlay st e).2 = utterancesRef st
  ∧ length (queue (handlePlay st e).2) = length notes
  ∧ (∀ i s, notes !! i = Some s →
       ∃ u, queue (handlePlay st e).2 !! i = Some u
            ∧ text u = heading s ++ str ". " ++ content s
            ∧ section u = i)
  ∧ playbackState (handlePlay st e).1 = playing.
Proof.
  apply (handlePlay_queues_every_section
           [Examples.forum_section; Examples.senate_section]
           (notesEffect [Examples.forum_section; Examples.senate_section]
                        Examples.fresh_view Examples.busy_engine).1
           Examples.busy_engine);
    reflexivity.
Defined.

(** Stopping clears the queue and the "currently speaking" mark. *)
Lemma handleStop_clears st e :
  queue (handleStop st e).2 = []
  ∧ speakingSectionIndex (handleStop st e).1 = None
  ∧ playbackState (handleStop st e).1 = stopped.
Proof. done. Qed.

End NarrationFacts.

(** * Further properties *)

(** ** The generation client: what is accepted and what is returned *)

Section GenerationClientEdges.

Import GeminiService.

(** Reading [question] off a value gives something truthy only for an
    object that has a truthy own [question]. *)
Lemma truthy_question_inv first q :
  get_property first (str "question") = Returned q → truthy q = true →
  ∃ props, first = VObj props ∧ q = own_property props (str "question").
Proof.
  destruct first; simpl; try discriminate; try (intros [= <-]; discriminate).
  intros [= <-] _. eauto.
Qed.

(** The validation of line 124 on a non-empty array looks at its first
    element only. *)
Lemma quiz_is_invalid_head first rest rest' :
  quiz_is_invalid (VArr (first :: rest)) = quiz_is_invalid (VArr (first :: rest')).
Proof. reflexivity. Qed.

(** [generateQuiz] returns exactly for a reply that parses to an array
    whose first element is an object with a truthy [question] (a non-empty
    string, a non-zero number, [true], an array or an object); what it
    returns is that array.  In particular a first question whose text is the
    empty string is rejected like a missing one. *)
Theorem generateQuiz_accepts_exactly topic notes reply quiz :
  generateQuiz topic notes reply = Returned quiz ↔
  ∃ props rest,
    reply = Json quiz
    ∧ quiz = VArr (VObj props :: rest)
    ∧ truthy (own_property props (str "question")) = true.
Proof.
  rewrite generateQuiz_returned, quiz_is_invalid_false. split.
  - intros (-> & first & rest & q & -> & Hq & Ht).
    destruct (truthy_question_inv first q Hq Ht) as (props & -> & ->).
    by exists props, rest.
  - intros (props & rest & -> & -> & Ht). split; [done|].
    by exists (VObj props), rest, (own_property props (str "question")).
Qed.

(** Only the first question is validated: whether a parsed array is
    returned or refused does not depend on the elements after the first,
    which may be anything. *)
Theorem generateQuiz_ignores_later_elements topic notes first rest rest' :
  match generateQuiz topic notes (Json (VArr (first :: rest))) with
  | Returned _ =>
      generateQuiz topic notes (Json (VArr (first :: rest')))
      = Returned (VArr (first :: rest'))
  | Thrown e =>
      generateQuiz topic notes (Json (VArr (first :: rest'))) = Thrown e
  end.
Proof.
  unfold generateQuiz. cbn [parsed_response mbind js_bind].
  rewrite (quiz_is_invalid_head first rest rest').
  destruct (quiz_is_invalid (VArr (first :: rest'))) as [[|]|e]; reflexivity.
Qed.

(** [generateImage] yields the placeholder exactly when the request rejects
    or the response has no first generated image with an [image] object; in
    every other case it yields the data URI of that image, which for an image
    without [imageBytes] ends in the text "undefined". *)
Theorem generateImage_placeholder_iff prompt reply :
  (generateImage prompt reply = Returned placeholderUrl ↔
     ¬ ∃ first rest img,
         reply = ImagesResponse (Some (first :: rest)) ∧ image first = Some img)
  ∧ ∀ first rest img,
      reply = ImagesResponse (Some (first :: rest)) → image first = Some img →
      generateImage prompt reply
      = Returned (dataUriPrefix ++ default (str "undefined") (imageBytes img)).
Proof.
  split.
  - unfold generateImage, generateImage_body, try_catch.
    destruct reply as [reason|[[|first rest]|]]; simpl;
      try (split; [intros _ (? & ? & ? & [=] & _) | done]).
    destruct (image first) as [img|] eqn:Himg.
    + split.
      * intros Heq. discriminate Heq.
      * intros Hno. destruct Hno. by exists first, rest, img.
    + split; [|done]. intros _ (f & r & img & [= <- <-] & Hi). congruence.
  - intros first rest img -> Himg.
    unfold generateImage, generateImage_body, try_catch. simpl. by rewrite Himg.
Qed.

End GenerationClientEdges.

(** ** The topic input: trimming and the submit button *)

Section TopicInputEdges.

Import TopicInput.

Lemma trimStart_fixed s :
  (∀ c, head s = Some c → is_white_space c = false) → trimStart s = s.
Proof.
  destruct s as [|c s]; [done|]. intros Hhead. simpl.
  by rewrite (Hhead c eq_refl).
Qed.

Lemma trimEnd_fixed s :
  (∀ c, last s = Some c → is_white_space c = false) → trimEnd s = s.
Proof.
  intros Hlast. unfold trimEnd. rewrite trimStart_fixed.
  - apply reverse_involutive.
  - intros c. rewrite head_reverse. apply Hlast.
Qed.

Lemma trim_trim s : trim (trim s) = trim s.
Proof.
  destruct (trim_split s) as (pre & post & _ & _ & _ & Hhead & Hlast).
  unfold trim at 1. rewrite (trimStart_fixed (trim s) Hhead).
  by apply trimEnd_fixed.
Qed.

(** Trimming a trimmed string changes nothing, and a string that neither
    starts nor ends with white space is its own trimmed form. *)
Theorem trim_idempotent s :
  trim (trim s) = trim s
  ∧ ((∀ c, head s = Some c → is_white_space c = false) →
     (∀ c, last s = Some c → is_white_space c = false) →
     trim s = s).
Proof.
  split; [apply trim_trim|].
  intros Hhead Hlast. unfold trim. rewrite (trimStart_fixed s Hhead).
  by apply trimEnd_fixed.
Qed.

(** The submit button is disabled (line 33) in exactly the cases in which
    [handleSubmit] (line 14) would do nothing: the two tests agree, so an
    enabled button always forwards, and the handler never forwards for a
    disabled one. *)
Theorem button_disabled_iff_no_call isLoading topic :
  (button_disabled isLoading topic = true ↔
     handleSubmit isLoading topic = {| onGenerate_calls := []; topic_after := topic |})
  ∧ (button_disabled isLoading topic = false ↔
     handleSubmit isLoading topic
     = {| onGenerate_calls := [trim topic]; topic_after := [] |}).
Proof.
  unfold button_disabled, handleSubmit, empty_string.
  destruct isLoading, (trim topic) as [|c t]; simpl; split; split; congruence.
Qed.

(** Submitting twice in a row forwards at most one topic: after a
    submission that reached the callback the input is empty, and an empty
    input is never forwarded. *)
Theorem handleSubmit_twice isLoading isLoading' topic :
  length (onGenerate_calls (handleSubmit isLoading topic))
  + length (onGenerate_calls
              (handleSubmit isLoading' (topic_after (handleSubmit isLoading topic))))
  ≤ 1.
Proof.
  unfold handleSubmit.
  destruct (str_truthy (trim topic) && negb isLoading) eqn:Hfirst; simpl.
  - lia.
  - destruct (str_truthy (trim topic) && negb isLoading'); simpl; lia.
Qed.

End TopicInputEdges.

(** ** The quiz page as the user drives it *)

Section QuizSession.

Import QuizDisplay.

Lemma click_on_results quiz st c :
  showResults st = true →
  click quiz st c = match c with ClickRetake => handleRetake st | _ => st end.
Proof. unfold click. by intros ->. Qed.

(** One click keeps the page sound: the cursor on a question, every
    recorded answer filed under an existing question and taken from its
    options, and results shown only with as many answers as questions. *)
Lemma click_keeps_sound quiz st c :
  quiz ≠ [] →
  (currentQuestionIndex st < length quiz
   ∧ (∀ i recorded, answers st !! i = Some recorded →
        ∃ q, quiz !! i = Some q ∧ recorded ∈ options q)
   ∧ (showResults st = true → size (answers st) = length quiz)) →
  currentQuestionIndex (click quiz st c) < length quiz
  ∧ (∀ i recorded, answers (click quiz st c) !! i = Some recorded →
       ∃ q, quiz !! i = Some q ∧ recorded ∈ options q)
  ∧ (showResults (click quiz st c) = true → size (answers (click quiz st c)) = length quiz).
Proof.
  intros Hquiz%nonempty_length Hst.
  destruct (decide (showResults st = true)) as [Hshow|Hshow%not_true_is_false].
  { rewrite (click_on_results quiz st c Hshow).
    destruct c; try exact Hst. simpl. by repeat split. }
  destruct Hst as (Hcur & Hans & Hres). unfold click. rewrite Hshow.
  assert (showResults st = true → size (answers st) = length quiz) as Hnot
    by (rewrite Hshow; discriminate).
  destruct c.
  - destruct (quiz !! currentQuestionIndex st) as [q|] eqn:Hq; [|done].
    destruct (options q !! k) as [chosen|] eqn:Hk; [|done].
    simpl. repeat split; [done| |by rewrite Hshow].
    intros i recorded. destruct (decide (currentQuestionIndex st = i)) as [<-|Hne].
    + rewrite lookup_insert_eq. intros [= <-]. exists q. split; [done|].
      by eapply list_elem_of_lookup_2.
    + rewrite lookup_insert_ne by done. apply Hans.
  - destruct (on_last_question quiz st); [done|].
    unfold handleNext. case_bool_decide; [|done]. simpl.
    unfold totalQuestions in *. repeat split; [lia|done|by rewrite Hshow].
  - case_bool_decide; [done|].
    unfold handlePrev. case_bool_decide; [|done]. simpl.
    repeat split; [lia|done|by rewrite Hshow].
  - destruct (on_last_question quiz st); simpl; [|done].
    unfold submit_disabled, totalQuestions.
    case_bool_decide as Hsize; simpl; [done|].
    by repeat split.
  - done.
Qed.

Lemma clicks_keep_sound quiz clicks : ∀ st,
  quiz ≠ [] →
  (currentQuestionIndex st < length quiz
   ∧ (∀ i recorded, answers st !! i = Some recorded →
        ∃ q, quiz !! i = Some q ∧ recorded ∈ options q)
   ∧ (showResults st = true → size (answers st) = length quiz)) →
  currentQuestionIndex (foldl (click quiz) st clicks) < length quiz
  ∧ (∀ i recorded, answers (foldl (click quiz) st clicks) !! i = Some recorded →
       ∃ q, quiz !! i = Some q ∧ recorded ∈ options q)
  ∧ (showResults (foldl (click quiz) st clicks) = true →
       size (answers (foldl (click quiz) st clicks)) = length quiz).
Proof.
  induction clicks as [|c clicks IH]; intros st Hquiz Hst; simpl; [done|].
  apply IH; [done|]. by apply click_keeps_sound.
Qed.

Lemma initial_sound quiz :
  quiz ≠ [] →
  currentQuestionIndex initial < length quiz
  ∧ (∀ i recorded, answers initial !! i = Some recorded →
       ∃ q, quiz !! i = Some q ∧ recorded ∈ options q)
  ∧ (showResults initial = true → size (answers initial) = length quiz).
Proof.
  intros Hquiz. repeat split; try done.
  destruct quiz; [done|simpl; lia].
Qed.

(** When every recorded key is the index of a question, there are as many
    recorded answers as questions exactly when each question has one. *)
Lemma all_answered_iff (recorded : gmap nat JsString) n :
  (∀ i a, recorded !! i = Some a → i < n) →
  size recorded = n ↔ ∀ i, i < n → is_Some (recorded !! i).
Proof.
  intros Hkeys.
  assert (dom recorded ⊆ (set_seq 0 n : gset nat)) as Hsub.
  { intros i [a Ha]%elem_of_dom. apply elem_of_set_seq. split; [lia|]. simpl. eauto. }
  rewrite <- size_dom. split.
  - intros Hsize i Hi.
    apply elem_of_dom. erewrite (set_subseteq_size_eq _ _ Hsub).
    + apply elem_of_set_seq. lia.
    + rewrite size_set_seq. lia.
  - intros Hall.
    assert (dom recorded = (set_seq 0 n : gset nat)) as ->; [|by rewrite size_set_seq].
    apply set_eq. intros i. split; [apply Hsub|].
    intros [_ Hi]%elem_of_set_seq. apply elem_of_dom, Hall. simpl in Hi. lia.
Qed.

Lemma recorded_keys_bound (recorded : gmap nat JsString) n :
  (∀ i a, recorded !! i = Some a → i < n) → size recorded ≤ n.
Proof.
  intros Hkeys. rewrite <- size_dom, <- (size_set_seq (C := gset nat) 0 n).
  apply subseteq_size. intros i [a Ha]%elem_of_dom.
  apply elem_of_set_seq. split; [lia|]. simpl. eauto.
Qed.

(** Whatever the user clicks on a non-empty quiz, the cursor stays on a
    question, and every answer on record is filed under an existing
    question and is one of the options that question offers. *)
Theorem session_records_offered_options quiz clicks :
  quiz ≠ [] →
  currentQuestionIndex (session quiz clicks) < length quiz
  ∧ ∀ i recorded, answers (session quiz clicks) !! i = Some recorded →
      ∃ q, quiz !! i = Some q ∧ recorded ∈ options q.
Proof.
  intros Hquiz.
  destruct (clicks_keep_sound quiz clicks initial Hquiz (initial_sound quiz Hquiz))
    as (Hcur & Hans & _).
  by split.
Qed.

Lemma session_records_offered_options_witness :
  currentQuestionIndex
    (session Examples.two_questions [ClickOption 0; ClickNext; ClickOption 2; ClickOption 7])
    < length Examples.two_questions
  ∧ ∀ i recorded,
      answers (session Examples.two_questions
                 [ClickOption 0; ClickNext; ClickOption 2; ClickOption 7]) !! i
      = Some recorded →
      ∃ q, Examples.two_questions !! i = Some q ∧ recorded ∈ options q.
Proof.
  apply (session_records_offered_options Examples.two_questions
           [ClickOption 0; ClickNext; ClickOption 2; ClickOption 7]).
  discriminate.
Defined.

(** On a non-empty quiz, after any clicks: the count of answered questions
    never exceeds the number of questions, Submit is enabled exactly when
    every question has an answer on record, and the results are on screen
    only if every question has one. *)
Theorem submit_enabled_iff_all_answered quiz clicks :
  quiz ≠ [] →
  size (answers (session quiz clicks)) ≤ length quiz
  ∧ (submit_disabled quiz (session quiz clicks) = false ↔
     ∀ i, i < length quiz → is_Some (answers (session quiz clicks) !! i))
  ∧ (showResults (session quiz clicks) = true →
     ∀ i, i < length quiz → is_Some (answers (session quiz clicks) !! i)).
Proof.
  intros Hquiz.
  destruct (clicks_keep_sound quiz clicks initial Hquiz (initial_sound quiz Hquiz))
    as (_ & Hans & Hres).
  assert (∀ i a, answers (session quiz clicks) !! i = Some a → i < length quiz) as Hkeys.
  { intros i a Ha. destruct (Hans i a Ha) as (q & Hq & _). by eapply lookup_lt_Some. }
  pose proof (all_answered_iff (answers (session quiz clicks)) (length quiz) Hkeys) as Hiff.
  split; [by apply recorded_keys_bound|]. split.
  - rewrite submit_disabled_until_all_answered. exact Hiff.
  - intros Hshow. apply Hiff, Hres, Hshow.
Qed.

Lemma submit_enabled_iff_all_answered_witness :
  size (answers (session Examples.two_questions
                   [ClickOption 0; ClickNext; ClickOption 2; ClickSubmit]))
  ≤ length Examples.two_questions
  ∧ (submit_disabled Examples.two_questions
     (session Examples.two_questions [ClickOption 0; ClickNext; ClickOption 2; ClickSubmit])
   = false ↔
   ∀ i, i < length Examples.two_questions →
        is_Some (answers (session Examples.two_questions
                            [ClickOption 0; ClickNext; ClickOption 2; ClickSubmit]) !! i))
  ∧ (showResults
       (session Examples.two_questions [ClickOption 0; ClickNext; ClickOption 2; ClickSubmit])
     = true →
     ∀ i, i < length Examples.two_questions →
          is_Some (answers (session Examples.two_questions
                              [ClickOption 0; ClickNext; ClickOption 2; ClickSubmit]) !! i)).
Proof.
  apply (submit_enabled_iff_all_answered Examples.two_questions
           [ClickOption 0; ClickNext; ClickOption 2; ClickSubmit]).
  discriminate.
Defined.

End QuizSession.

(** ** The score: bounds, updates and the review list *)

Section ScoreFacts.

Import QuizDisplay.

(** Counting, over distinct indices, with two tests that differ at most at
    index [i]. *)
Lemma count_differs_at (P P' : nat → bool) i l :
  NoDup l → (∀ j, j ∈ l → j ≠ i → P' j = P j) →
  length (filter (λ j, P' j) l) + (if decide (i ∈ l) then if P i then 1 else 0 else 0)
  = length (filter (λ j, P j) l) + (if decide (i ∈ l) then if P' i then 1 else 0 else 0).
Proof.
  induction 1 as [|j l Hj Hnd IH]; intros Hsame; [done|].
  rewrite !filter_cons.
  assert (∀ k, k ∈ l → k ≠ i → P' k = P k) as Hl
    by (intros k Hk; apply Hsame, elem_of_cons; by right).
  specialize (IH Hl).
  destruct (decide (j = i)) as [->|Hne].
  - rewrite !(decide_True (P := i ∈ i :: l)) by (apply elem_of_cons; by left).
    rewrite !(decide_False (P := i ∈ l)) in IH by done.
    destruct (P i), (P' i); simpl; lia.
  - rewrite (Hsame j) by (done || (apply elem_of_cons; by left)).
    destruct (decide (i ∈ l)) as [Hi|Hi].
    + rewrite !(decide_True (P := i ∈ j :: l)) by (apply elem_of_cons; by right).
      destruct (P j); simpl; lia.
    + rewrite !(decide_False (P := i ∈ j :: l)) by (by intros [?|?]%elem_of_cons).
      destruct (P j); simpl; lia.
Qed.

(** Recording [chosen] for a question changes the score by that question
    alone: one is added when the choice is the question's [correctAnswer]
    and the question did not count before, one is taken away when it counted
    and the choice is another option, and nothing changes otherwise. *)
Theorem score_after_select quiz st q chosen :
  quiz !! currentQuestionIndex st = Some q →
  score quiz (answers (handleAnswerSelect chosen st))
  + (if answered_correctly quiz (answers st) (currentQuestionIndex st) then 1 else 0)
  = score quiz (answers st)
    + (if bool_decide (chosen = correctAnswer q) then 1 else 0).
Proof.
  intros Hq. rewrite !score_is_count. unfold count_correct. simpl.
  pose proof (count_differs_at (answered_correctly quiz (answers st))
                (answered_correctly quiz (<[currentQuestionIndex st := chosen]> (answers st)))
                (currentQuestionIndex st) (seq 0 (length quiz)) (NoDup_seq _ _)) as Hcount.
  rewrite !decide_True in Hcount
    by (apply elem_of_seq; apply lookup_lt_Some in Hq; lia).
  assert (answered_correctly quiz (<[currentQuestionIndex st := chosen]> (answers st))
            (currentQuestionIndex st) = bool_decide (chosen = correctAnswer q)) as Hnew.
  { unfold answered_correctly. by rewrite Hq, lookup_insert_eq. }
  rewrite Hnew in Hcount. apply Hcount.
  intros j _ Hj. unfold answered_correctly. by rewrite lookup_insert_ne.
Qed.

Lemma score_after_select_witness :
  score Examples.two_questions
    (answers (handleAnswerSelect (str "B")
                {| currentQuestionIndex := 1; answers := Examples.two_answers;
                   showResults := false |}))
  + (if answered_correctly Examples.two_questions Examples.two_answers 1 then 1 else 0)
  = score Examples.two_questions Examples.two_answers
    + (if bool_decide (str "B" = str "B") then 1 else 0).
Proof.
  apply (score_after_select Examples.two_questions
           {| currentQuestionIndex := 1; answers := Examples.two_answers;
              showResults := false |}
           {| question := str "Second?"; options := [str "A"; str "B"; str "C"; str "D"];
              correctAnswer := str "B"; explanation := empty_string |}
           (str "B")).
  reflexivity.
Defined.




(** The rows of the review list, from position [k] on. *)
Lemma review_rows_from (answers : gmap nat JsString) rest : ∀ k acc,
  reduce_from (λ total question index,
                 if decide (answers !! index = Some (correctAnswer question))
                 then total + 1 else total)
              k rest acc
  = acc + length (filter (λ row, isCorrect row)
                    (imap (λ index, review_row answers (k + index)) rest)).
Proof.
  induction rest as [|q rest IH]; intros k acc; [simpl; lia|].
  rewrite imap_cons, filter_cons, Nat.add_0_r.
  rewrite (imap_ext _ (λ index, review_row answers (S k + index)) rest); last first.
  { intros i x _. unfold compose. by rewrite Nat.add_succ_r. }
  cbn [reduce_from]. rewrite IH.
  change (isCorrect (review_row answers k q))
    with (bool_decide (answers !! k = Some (correctAnswer q))).
  destruct (decide (answers !! k = Some (correctAnswer q))) as [Heq|Hne].
  - rewrite bool_decide_eq_true_2 by done. simpl. lia.
  - rewrite bool_decide_eq_false_2 by done. simpl. lia.
Qed.

(** The review list has one row per question; the rows marked correct are
    as many as the score; a row reads "Not answered" exactly when nothing is
    recorded for it or what is recorded is the empty string (or that very
    text); and the "Correct answer" line is left out exactly on the rows
    marked correct. *)
Theorem review_agrees_with_score quiz answers :
  length (review quiz answers) = length quiz
  ∧ length (filter (λ row, isCorrect row) (review quiz answers)) = score quiz answers
  ∧ ∀ i row, review quiz answers !! i = Some row →
      isCorrect row = answered_correctly quiz answers i
      ∧ (yourAnswer row = notAnswered ↔
           answers !! i = None ∨ answers !! i = Some [] ∨ answers !! i = Some notAnswered)
      ∧ (correctShown row = None ↔ isCorrect row = true).
Proof.
  split; [apply length_imap|].
  split; [symmetry; apply (review_rows_from answers quiz 0 0)|].
  intros i row. unfold review. rewrite list_lookup_imap.
  destruct (quiz !! i) as [q|] eqn:Hq; [|done]. intros [= <-]. unfold review_row. simpl.
  split.
  { unfold answered_correctly. rewrite Hq.
    destruct (answers !! i) as [recorded|]; [|done].
    apply bool_decide_ext. split; [by intros [= ->]|by intros ->]. }
  split.
  - destruct (answers !! i) as [[|c recorded]|]; simpl.
    + split; [auto|done].
    + change (str_or (c :: recorded) notAnswered) with (c :: recorded).
      split; [intros Heq; right; right; by rewrite Heq|].
      intros [?|[?|Heq]]; [done|done|congruence].
    + split; [auto|done].
  - case_bool_decide; split; done.
Qed.

End ScoreFacts.

(** ** The notes view: voices, playback and the engine's events *)

Section VoiceFacts.

Import NotesDisplay.

(** [Array.prototype.find] returns the first element that passes the test. *)
Lemma find_first {A} (p : A → bool) l x :
  List.find p l = Some x →
  ∃ before after, l = before ++ x :: after ∧ p x = true
                  ∧ Forall (λ y, p y = false) before.
Proof.
  induction l as [|y l IH]; [done|]. simpl.
  destruct (p y) eqn:Hy.
  - intros [= ->]. by exists [], l.
  - intros (before & after & -> & Hx & Hbefore)%IH.
    exists (y :: before), after. repeat split; [done|]. by constructor.
Qed.

Lemma find_nothing {A} (p : A → bool) l :
  List.find p l = None → Forall (λ y, p y = false) l.
Proof.
  induction l as [|y l IH]; [constructor|]. simpl.
  destruct (p y) eqn:Hy; [done|]. intros Hl. constructor; auto.
Qed.

Lemma filter_In_elem {A} (p : A → bool) l x :
  x ∈ List.filter p l ↔ x ∈ l ∧ p x = true.
Proof. rewrite !list_elem_of_In. apply filter_In. Qed.

Lemma loadAndSetVoice_unlistens voices st listener :
  voices ≠ [] → (loadAndSetVoice voices st listener).2 = NoListener.
Proof.
  intros Hvoices. unfold loadAndSetVoice.
  by rewrite decide_False by (by destruct voices).
Qed.

(** With voices installed, [loadAndSetVoice] clears the listener and picks
    among the voices whose language starts with "en-", in the order the
    engine lists them: the first with a preferred name; failing that the
    first remote one; failing that the first default one; failing that the
    first of them.  No voice is picked exactly when none is English.  The
    order of the preferred names plays no part. *)
Theorem loadAndSetVoice_choice voices st listener :
  voices ≠ [] →
  (loadAndSetVoice voices st listener).2 = NoListener
  ∧ (selectedVoice (loadAndSetVoice voices st listener).1 = None ↔
       List.filter (λ v, startsWith (lang (installed v)) (str "en-")) voices = [])
  ∧ ∀ chosen, selectedVoice (loadAndSetVoice voices st listener).1 = Some chosen →
      ∃ before v after,
        List.filter (λ v, startsWith (lang (installed v)) (str "en-")) voices
        = before ++ v :: after
        ∧ installed v = chosen
        ∧ v ∈ voices
        ∧ startsWith (lang chosen) (str "en-") = true
        ∧ (is_preferred v = true ∧ Forall (λ w, is_preferred w = false) before
           ∨ Forall (λ w, is_preferred w = false) (before ++ v :: after)
             ∧ is_remote v = true ∧ Forall (λ w, is_remote w = false) before
           ∨ Forall (λ w, is_preferred w = false) (before ++ v :: after)
             ∧ Forall (λ w, is_remote w = false) (before ++ v :: after)
             ∧ default v = true ∧ Forall (λ w, default w = false) before
           ∨ Forall (λ w, is_preferred w = false) (before ++ v :: after)
             ∧ Forall (λ w, is_remote w = false) (before ++ v :: after)
             ∧ Forall (λ w, default w = false) (before ++ v :: after)
             ∧ before = []).
Proof.
  intros Hvoices. unfold loadAndSetVoice.
  rewrite decide_False by (by destruct voices).
  set (english := List.filter _ voices).
  assert (∀ before v after, english = before ++ v :: after →
            v ∈ voices ∧ startsWith (lang (installed v)) (str "en-") = true) as Hin.
  { intros before v after Heq.
    apply (filter_In_elem (λ v, startsWith (lang (installed v)) (str "en-")) voices v).
    fold english. rewrite Heq. apply elem_of_app. right. apply elem_of_cons. by left. }
  split; [done|]. cbn [fst].
  destruct (List.find is_preferred english) as [v1|] eqn:H1.
  { split; [split; [done|]; intros Hnil; by rewrite Hnil in H1|].
    intros chosen [= <-].
    destruct (find_first _ _ _ H1) as (before & after & Heq & Hv & Hbefore).
    destruct (Hin _ _ _ Heq) as [Hv1 Hen].
    exists before, v1, after. repeat split; try done. by left. }
  apply find_nothing in H1.
  destruct (List.find is_remote english) as [v2|] eqn:H2.
  { split; [split; [done|]; intros Hnil; by rewrite Hnil in H2|].
    intros chosen [= <-].
    destruct (find_first _ _ _ H2) as (before & after & Heq & Hv & Hbefore).
    destruct (Hin _ _ _ Heq) as [Hv2 Hen].
    exists before, v2, after. repeat split; try done.
    right; left. by rewrite <- Heq. }
  apply find_nothing in H2.
  destruct (List.find default english) as [v3|] eqn:H3.
  { split; [split; [done|]; intros Hnil; by rewrite Hnil in H3|].
    intros chosen [= <-].
    destruct (find_first _ _ _ H3) as (before & after & Heq & Hv & Hbefore).
    destruct (Hin _ _ _ Heq) as [Hv3 Hen].
    exists before, v3, after. repeat split; try done.
    right; right; left. by rewrite <- Heq. }
  apply find_nothing in H3.
  destruct english as [|v4 after] eqn:Heq; simpl.
  { split; [done|]. intros chosen [=]. }
  split; [split; [done|discriminate]|].
  intros chosen [= <-].
  destruct (Hin [] v4 after eq_refl) as [Hv4 Hen].
  exists [], v4, after. repeat split; try done.
  right; right; right. by repeat split.
Qed.

Lemma loadAndSetVoice_choice_witness :
  Examples.installed_voices ≠ []
  ∧ (loadAndSetVoice Examples.installed_voices Examples.fresh_view Listening).2 = NoListener.
Proof.
  split; [discriminate|].
  apply (loadAndSetVoice_choice Examples.installed_voices Examples.fresh_view Listening).
  discriminate.
Defined.

(** Alex is listed before Google US English and is picked, although the
    latter comes first among the preferred names; the default voice is not
    English and is passed over. *)
Example loadAndSetVoice_list_order :
  selectedVoice (loadAndSetVoice Examples.installed_voices Examples.fresh_view Listening).1
  = Some (installed Examples.alex).
Proof. reflexivity. Qed.

(** Without voices [loadAndSetVoice] changes nothing, and without a
    listener an event changes nothing. *)
Lemma voiceschanged_nothing sl : voiceschanged sl [] = sl.
Proof. unfold voiceschanged. destruct sl as [st []]; reflexivity. Qed.

Lemma voiceschanged_deaf events : ∀ st listener,
  listener ≠ Listening →
  foldl voiceschanged (st, listener) events = (st, listener).
Proof.
  induction events as [|voices events IH]; intros st listener Hdeaf; [done|].
  simpl. unfold voiceschanged at 2. simpl.
  destruct listener; try done; by apply IH.
Qed.

(** While the listener is installed, the first [voiceschanged] event that
    finds voices installed settles the voice: events before it find none and
    change nothing, that event runs the choice and clears the listener, and
    no later event changes anything. *)
Theorem voice_settled_by_first_voices silent voices later st :
  Forall (λ found, found = []) silent → voices ≠ [] →
  foldl voiceschanged (st, Listening) (silent ++ voices :: later)
  = loadAndSetVoice voices st Listening.
Proof.
  intros Hsilent Hvoices. rewrite foldl_app.
  assert (foldl voiceschanged (st, Listening) silent = (st, Listening)) as ->.
  { induction Hsilent as [|found silent -> _ IH]; [done|].
    simpl. by rewrite voiceschanged_nothing. }
  simpl. unfold voiceschanged at 2. simpl.
  destruct (loadAndSetVoice voices st Listening) as [st' listener'] eqn:Hload.
  apply voiceschanged_deaf.
  pose proof (loadAndSetVoice_unlistens voices st Listening Hvoices) as Hl.
  rewrite Hload in Hl. simpl in Hl. by rewrite Hl.
Qed.

Lemma voice_settled_by_first_voices_witness :
  foldl voiceschanged (Examples.fresh_view, Listening)
        ([[]; []] ++ Examples.installed_voices :: [[Examples.google_us]])
  = loadAndSetVoice Examples.installed_voices Examples.fresh_view Listening.
Proof.
  apply (voice_settled_by_first_voices [[]; []] Examples.installed_voices
           [[Examples.google_us]] Examples.fresh_view).
  - by repeat constructor.
  - discriminate.
Defined.

(** Mounting with voices already installed picks a voice and still leaves
    the listener installed (line 62 runs after line 56), also on an engine
    that had no [onvoiceschanged] property; mounting without voices on such
    an engine installs nothing, and then no event ever picks a voice. *)
Theorem mountEffect_listener voices st listener events :
  (voices ≠ [] →
     mountEffect voices st listener = ((loadAndSetVoice voices st listener).1, Listening))
  ∧ foldl voiceschanged (mountEffect [] st NoSuchProperty) events = (st, NoSuchProperty)
  ∧ mountEffect [] st NoListener = (st, Listening).
Proof.
  split; [|split; [by apply voiceschanged_deaf|done]].
  intros Hvoices. unfold mountEffect.
  by rewrite (loadAndSetVoice_unlistens voices st listener Hvoices).
Qed.

End VoiceFacts.

Section PlaybackFacts.

Import NotesDisplay.

(** The engine's events never touch the utterances nor the voice. *)
Lemma spoken_keeps_utterances st u :
  utterancesRef (spoken st u) = utterancesRef st.
Proof. unfold spoken, onend, onstart. by case_bool_decide. Qed.

Lemma narrate_keeps_utterances us : ∀ st,
  utterancesRef (narrate us st) = utterancesRef st.
Proof.
  induction us as [|u us IH]; intros st; [done|].
  unfold narrate in *. simpl. by rewrite IH, spoken_keeps_utterances.
Qed.

(** Speaking utterance [k] of [n] to its end: the last one stops playback
    and clears the mark, any other leaves its section marked. *)
Lemma spoken_section notes selected st k s :
  utterancesRef st = imap (utterance_of selected) notes →
  notes !! k = Some s →
  spoken st (utterance_of selected k s)
  = if decide (S k = length notes)
    then setSpeakingSectionIndex None
           (setPlaybackState stopped (setSpeakingSectionIndex (Some k) st))
    else setSpeakingSectionIndex (Some k) st.
Proof.
  intros Hrefs Hk. apply lookup_lt_Some in Hk as Hlt.
  unfold spoken, onend, onstart. simpl. rewrite Hrefs, length_imap.
  case_bool_decide; case_decide; try done; lia.
Qed.

(** As the engine speaks the queued utterances in order, the section being
    spoken is the one marked; between two utterances the mark stays on the
    one just finished and the view stays as it was; when the last utterance
    ends the view is stopped and no section is marked. *)
Theorem narration_marks_sections notes selected st :
  utterancesRef st = imap (utterance_of selected) notes →
  (∀ k u, utterancesRef st !! k = Some u →
     speakingSectionIndex (onstart u (narrate (take k (utterancesRef st)) st)) = Some k)
  ∧ (∀ k, 0 < k < length notes →
     speakingSectionIndex (narrate (take k (utterancesRef st)) st) = Some (k - 1)
     ∧ playbackState (narrate (take k (utterancesRef st)) st) = playbackState st)
  ∧ (notes ≠ [] →
     speakingSectionIndex (narrate (utterancesRef st) st) = None
     ∧ playbackState (narrate (utterancesRef st) st) = stopped).
Proof.
  intros Hrefs.
  assert (∀ k, k < length notes →
            narrate (take (S k) (utterancesRef st)) st
            = if decide (S k = length notes)
              then setSpeakingSectionIndex None
                     (setPlaybackState stopped
                        (setSpeakingSectionIndex (Some k) (narrate (take k (utterancesRef st)) st)))
              else setSpeakingSectionIndex (Some k) (narrate (take k (utterancesRef st)) st))
    as Hstep.
  { intros k Hk. destruct (lookup_lt_is_Some_2 notes k Hk) as [s Hs].
    assert (utterancesRef st !! k = Some (utterance_of selected k s)) as Hu
      by (by rewrite Hrefs, list_lookup_imap, Hs).
    rewrite (take_S_r _ _ _ Hu). unfold narrate. rewrite foldl_app. simpl.
    apply (spoken_section notes selected); [|done].
    fold (narrate (take k (utterancesRef st)) st).
    by rewrite narrate_keeps_utterances. }
  assert (∀ k, 0 < k < length notes →
            speakingSectionIndex (narrate (take k (utterancesRef st)) st) = Some (k - 1)
            ∧ playbackState (narrate (take k (utterancesRef st)) st) = playbackState st)
    as Hmid.
  { induction k as [|k IH]; [lia|]. intros Hk.
    rewrite Hstep by lia. rewrite decide_False by lia. simpl.
    rewrite Nat.sub_0_r. split; [done|].
    destruct k as [|k]; [done|]. apply IH. lia. }
  split; [|split; [exact Hmid|]].
  - intros k u Hu. unfold onstart. simpl.
    rewrite Hrefs, list_lookup_imap in Hu.
    destruct (notes !! k); [|done]. by injection Hu as <-.
  - intros Hnotes.
    assert (narrate (utterancesRef st) st
            = narrate (take (S (length notes - 1)) (utterancesRef st)) st) as ->.
    { rewrite take_ge; [done|]. rewrite Hrefs, length_imap. lia. }
    apply nonempty_length in Hnotes.
    rewrite Hstep by lia. by rewrite decide_True by lia.
Qed.

Lemma narration_marks_sections_witness :
  Examples.forum_section :: [Examples.senate_section] ≠ []
  ∧ speakingSectionIndex
      (narrate (utterancesRef Examples.narrating_view) Examples.narrating_view) = None
  ∧ playbackState
      (narrate (utterancesRef Examples.narrating_view) Examples.narrating_view) = stopped.
Proof.
  split; [discriminate|].
  apply (narration_marks_sections [Examples.forum_section; Examples.senate_section]
           None Examples.narrating_view); [reflexivity|discriminate].
Defined.

(** Pause and then play, during playback, bring the view back to the state
    it was in; on the engine this is one [pause] and one [resume], nothing
    is cancelled and nothing is queued again. *)
Theorem pause_then_play_resumes st e :
  utterancesRef st ≠ [] → playbackState st = playing →
  (handlePlay (handlePause st e).1 (handlePause st e).2).1 = st
  ∧ playbackState (handlePause st e).1 = paused
  ∧ calls (handlePlay (handlePause st e).1 (handlePause st e).2).2
    = calls e ++ [Pause; Resume]
  ∧ queue (handlePlay (handlePause st e).1 (handlePause st e).2).2 = queue e
  ∧ is_paused (handlePlay (handlePause st e).1 (handlePause st e).2).2 = false.
Proof.
  intros Hrefs Hplaying. unfold handlePause. rewrite Hplaying. simpl.
  rewrite handlePlay_resumes by done. simpl.
  repeat split; [|by rewrite <- app_assoc].
  destruct st; simpl in *. by subst.
Qed.

Lemma pause_then_play_resumes_witness :
  (handlePlay (handlePause Examples.narrating_view Examples.busy_engine).1
              (handlePause Examples.narrating_view Examples.busy_engine).2).1
  = Examples.narrating_view.
Proof.
  apply (pause_then_play_resumes Examples.narrating_view Examples.busy_engine);
    [discriminate|reflexivity].
Defined.

(** Pause, stop, play: the view says playing and all utterances are queued
    again, but the engine was paused and is never resumed on this path: the
    calls made are [pause], [cancel], [cancel] and one [speak] per utterance,
    and a cancel leaves the engine's paused flag as it is. *)
Theorem pause_stop_play_never_resumes st e :
  utterancesRef st ≠ [] → playbackState st = playing →
  let paused_at := handlePause st e in
  let stopped_at := handleStop paused_at.1 paused_at.2 in
  let played := handlePlay stopped_at.1 stopped_at.2 in
  playbackState played.1 = playing
  ∧ calls played.2
    = calls e ++ [Pause; Cancel; Cancel] ++ (Speak <$> utterancesRef st)
  ∧ (Resume ∉ [Pause; Cancel; Cancel] ++ (Speak <$> utterancesRef st))
  ∧ queue played.2 = utterancesRef st
  ∧ is_paused played.2 = true.
Proof.
  intros Hrefs Hplaying. unfold handlePause. rewrite Hplaying. simpl.
  unfold handlePlay. simpl.
  rewrite decide_False by (by destruct (utterancesRef st)).
  destruct (speak_all_spec (utterancesRef st) (cancel (cancel (pause e))))
    as (Hq & Hc & Hp).
  cbn [fst snd]. rewrite Hq, Hc, Hp. simpl.
  repeat split; [by rewrite <- !app_assoc|].
  intros Hin. repeat (apply elem_of_cons in Hin as [?|Hin]; [done|]).
  apply list_elem_of_fmap in Hin as (u & ? & _). done.
Qed.

Lemma pause_stop_play_never_resumes_witness :
  is_paused
    (handlePlay
       (handleStop (handlePause Examples.narrating_view Examples.idle_engine).1
                   (handlePause Examples.narrating_view Examples.idle_engine).2).1
       (handleStop (handlePause Examples.narrating_view Examples.idle_engine).1
                   (handlePause Examples.narrating_view Examples.idle_engine).2).2).2
  = true.
Proof.
  apply (pause_stop_play_never_resumes Examples.narrating_view Examples.idle_engine);
    [discriminate|reflexivity].
Defined.

(** When the note set changes (the effect of lines 73-108 runs again), any
    speech still queued is cancelled, with no call made on an idle engine;
    the view is stopped and unmarked; every new utterance carries the
    selected voice; and a following play queues the utterances of the new
    note set only. *)
Theorem notes_change_requeues notes st e :
  notes ≠ [] →
  let changed := notesEffect notes st e in
  let played := handlePlay changed.1 changed.2 in
  calls changed.2 = calls e ++ (if speaking_or_pending e then [Cancel] else [])
  ∧ queue changed.2 = []
  ∧ playbackState changed.1 = stopped
  ∧ speakingSectionIndex changed.1 = None
  ∧ Forall (λ u, voice u = selectedVoice st) (utterancesRef changed.1)
  ∧ queue played.2 = imap (utterance_of (selectedVoice st)) notes
  ∧ playbackState played.1 = playing.
Proof.
  intros Hnotes. cbv zeta.
  assert (utterancesRef (notesEffect notes st e).1
          = imap (utterance_of (selectedVoice st)) notes) as Hrefs by done.
  destruct (notesEffect_ready notes st e) as (Hstop & Hmark & _ & Hqueue).
  split. { unfold notesEffect. simpl. destruct (speaking_or_pending e); simpl;
           [done|by rewrite app_nil_r]. }
  split; [done|]. split; [done|]. split; [done|].
  split.
  { rewrite Hrefs. apply Forall_forall. intros u Hu.
    apply list_elem_of_lookup in Hu as [i Hi].
    rewrite list_lookup_imap in Hi. destruct (notes !! i); [|done].
    by injection Hi as <-. }
  unfold handlePlay. rewrite decide_False; last first.
  { rewrite Hrefs, length_imap. by destruct notes. }
  rewrite Hstop, Hrefs. cbn [fst snd].
  destruct (speak_all_spec (imap (utterance_of (selectedVoice st)) notes)
              (cancel (notesEffect notes st e).2)) as (Hq & _ & _).
  split; [|done]. by rewrite Hq.
Qed.

Lemma notes_change_requeues_witness :
  queue (handlePlay
           (notesEffect [Examples.senate_section] Examples.narrating_view
                        Examples.busy_engine).1
           (notesEffect [Examples.senate_section] Examples.narrating_view
                        Examples.busy_engine).2).2
  = imap (utterance_of (selectedVoice Examples.narrating_view)) [Examples.senate_section].
Proof.
  apply (notes_change_requeues [Examples.senate_section] Examples.narrating_view
           Examples.busy_engine).
  discriminate.
Defined.

End PlaybackFacts.

(** ** The application with requests in flight *)

Section ApplicationRun.

Import GeminiService App.

#[local] Arguments str : simpl never.

(** Run without interruption, the stretches of [handleGenerate] and of
    [handleStartQuiz] make up the handlers. *)
Lemma handleGenerate_in_stretches inputTopic reply images st :
  handleGenerate inputTopic reply images st
  = match handleGenerate_notes_settled (generateNotes inputTopic reply)
            (handleGenerate_start inputTopic st) with
    | (st', None) => st'
    | (st', Some structuredNotes) =>
        handleGenerate_images_settled (illustrate_from 0 images structuredNotes) st'
    end.
Proof.
  unfold handleGenerate, handleGenerate_body, handleGenerate_notes_settled.
  destruct (generateNotes inputTopic reply) as [structuredNotes|e]; [|done].
  cbn [mbind js_bind].
  destruct (elements_to_illustrate structuredNotes) as [elems|e]; [|done].
  cbn [mbind js_bind mret js_ret]. unfold handleGenerate_images_settled.
  by destruct (illustrate_from 0 images elems).
Qed.

Lemma handleStartQuiz_in_stretches reply st :
  handleStartQuiz reply st
  = match handleStartQuiz_start st with
    | (st', None) => st'
    | (st', Some (requestedTopic, requestedNotes)) =>
        handleStartQuiz_settled (generateQuiz requestedTopic requestedNotes reply) st'
    end.
Proof.
  unfold handleStartQuiz, handleStartQuiz_start.
  destruct (notes st) as [current|]; [|done]. simpl.
  by destruct (generateQuiz (topic st) current reply).
Qed.

Lemma generateQuiz_returned_valid requestedTopic requestedNotes reply q :
  generateQuiz requestedTopic requestedNotes reply = Returned q →
  ∃ props rest, q = VArr (VObj props :: rest)
                ∧ truthy (own_property props (str "question")) = true.
Proof.
  intros [_ Hvalid]%generateQuiz_returned.
  apply quiz_is_invalid_false in Hvalid as (first & rest & v & -> & Hv & Ht).
  destruct (truthy_question_inv first v Hv Ht) as (props & -> & ->).
  by exists props, rest.
Qed.

Lemma initial_world_sound : sound initial_world.
Proof.
  unfold sound, initial_world. simpl.
  repeat split; try done; try (by intros [? ?]); try (by intros [[? ?]|[? ?]]).
Qed.

(** No request for notes or images is in flight unless the page is loading. *)
Lemma sound_idle w :
  sound w → isLoading (ui w) = false → notesRequest w = None ∧ imagesRequest w = None.
Proof.
  intros (_ & _ & Hload & _) Hidle.
  destruct (notesRequest w) eqn:Hn, (imagesRequest w) eqn:Hi; try done;
    (assert (isLoading (ui w) = true) by (apply Hload; eauto)); congruence.
Qed.

(** An event that leaves the notes, their error, the loading state, the
    topic and the notes and image requests alone keeps the world sound, if
    the quiz it leaves is a validated one. *)
Lemma sound_quiz_only w w' :
  sound w →
  notes (ui w') = notes (ui w) → error (ui w') = error (ui w) →
  isLoading (ui w') = isLoading (ui w) → loadingMessage (ui w') = loadingMessage (ui w) →
  topic (ui w') = topic (ui w) →
  notesRequest w' = notesRequest w → imagesRequest w' = imagesRequest w →
  (∀ q, quiz (ui w') = Some q →
     ∃ props rest, q = VArr (VObj props :: rest)
                   ∧ truthy (own_property props (str "question")) = true) →
  sound w'.
Proof.
  unfold sound. intros Hw -> -> -> -> -> -> -> Hquiz.
  destruct Hw as (? & ? & ? & ? & ? & ? & ? & _ & ?).
  do 7 (split; [assumption|]). by split.
Qed.

Lemma step_keeps_sound w ev : sound w → sound (step w ev).
Proof.
  intros Hw.
  pose proof Hw as (Hne & Herr & Hload & Hexcl & Hloading & Hmsg & Himg & Hquiz & Htopic).
  destruct ev as [typed|reply|images| |k reply| | ]; simpl.
  - (* the topic form is submitted *)
    unfold topicInput_shown.
    destruct (notes (ui w)) as [current|] eqn:Hnotes; [done|].
    destruct (isLoading (ui w)) eqn:Hidle; [by rewrite andb_false_r|].
    simpl. destruct (sound_idle w Hw Hidle) as [Hn Hi].
    unfold TopicInput.handleSubmit. rewrite andb_true_r.
    destruct (str_truthy (TopicInput.trim typed)); [|done].
    unfold sound. cbn. rewrite Hi.
    split; [done|]. split; [by intros [? ?]|].
    split; [split; [intros _; left; eauto|done]|].
    split; [by intros [_ [? ?]]|]. split; [done|]. split; [done|].
    split; [done|]. split; [done|]. symmetry. apply trim_trim.
  - (* the notes request settles *)
    destruct (notesRequest w) as [inputTopic|] eqn:Hn; [|done].
    assert (isLoading (ui w) = true) as Hbusy by (apply Hload; eauto).
    destruct (Hloading Hbusy) as [Hnotes Herror].
    assert (imagesRequest w = None) as Hi.
    { destruct (imagesRequest w) eqn:Hi; [|done]. destruct Hexcl. eauto. }
    assert (∀ e,
      sound {| ui := handleGenerate_finally (handleGenerate_catch e (ui w));
               notesRequest := None; imagesRequest := None;
               quizRequests := quizRequests w |}) as Hfailed.
    { intros e. unfold sound. cbn. rewrite Hnotes.
      split; [done|]. split; [by intros [? ?]|].
      split; [split; [done|by intros [[? ?]|[? ?]]]|].
      split; [by intros [[? ?] _]|]. by repeat split. }
    unfold handleGenerate_notes_settled.
    destruct (generateNotes inputTopic reply) as [structuredNotes|e]; [|apply Hfailed].
    cbn [mbind js_bind].
    destruct (elements_to_illustrate structuredNotes) as [elems|e] eqn:Helems;
      [|apply Hfailed].
    apply elements_to_illustrate_returned in Helems as [-> Hlen].
    unfold sound. cbn. rewrite Hnotes, Herror, Hbusy.
    split; [done|]. split; [done|].
    split; [split; [intros _; right; eauto|done]|].
    split; [by intros [[? ?] _]|]. split; [done|]. split; [done|].
    split; [|by split].
    by intros structured [= <-].
  - (* the image batch settles *)
    destruct (imagesRequest w) as [structuredNotes|] eqn:Hi; [|done].
    assert (isLoading (ui w) = true) as Hbusy by (apply Hload; eauto).
    destruct (Hloading Hbusy) as [Hnotes Herror].
    assert (notesRequest w = None) as Hn.
    { destruct (notesRequest w) eqn:Hn; [|done]. destruct Hexcl. eauto. }
    destruct (illustrate_from 0 images structuredNotes) as [shown|e] eqn:Hshown.
    + apply illustrate_from_length in Hshown as Hlen.
      unfold sound. cbn. rewrite Hn, Herror.
      split.
      { intros current [= <-]. specialize (Himg structuredNotes eq_refl).
        destruct shown; [|done]. by destruct structuredNotes. }
      split; [done|].
      split; [split; [done|by intros [[? ?]|[? ?]]]|].
      split; [by intros [[? ?] _]|]. by repeat split.
    + unfold sound. cbn. rewrite Hn, Hnotes.
      split; [done|]. split; [by intros [? ?]|].
      split; [split; [done|by intros [[? ?]|[? ?]]]|].
      split; [by intros [[? ?] _]|]. by repeat split.
  - (* the quiz is started *)
    destruct (startQuiz_enabled (ui w)); [|done].
    unfold handleStartQuiz_start.
    destruct (notes (ui w)) as [current|] eqn:Hnotes;
      by apply (sound_quiz_only w).
  - (* a quiz request settles *)
    destruct (quizRequests w !! k) as [[requestedTopic requestedNotes]|]; [|done].
    unfold handleStartQuiz_settled.
    destruct (generateQuiz requestedTopic requestedNotes reply) as [quizData|e] eqn:Hq.
    + apply (sound_quiz_only w); try done.
      intros q [= <-]. by eapply generateQuiz_returned_valid.
    + by apply (sound_quiz_only w).
  - (* the page is reset *)
    unfold reset_shown.
    destruct (isLoading (ui w)) eqn:Hidle; [by rewrite andb_false_r|].
    destruct (notes (ui w)); [|done]. simpl.
    destruct (sound_idle w Hw Hidle) as [Hn Hi].
    unfold sound. cbn. rewrite Hidle, Hn, Hi.
    split; [done|]. split; [by intros [? ?]|].
    split; [split; [done|by intros [[? ?]|[? ?]]]|].
    split; [by intros [[? ?] _]|]. by repeat split.
  - (* back to the notes *)
    destruct (quiz_shown (ui w)); [|done].
    by apply (sound_quiz_only w).
Qed.

Lemma run_sound events : sound (run events).
Proof.
  unfold run. generalize initial_world_sound. generalize initial_world.
  induction events as [|ev events IH]; intros w Hw; [done|].
  simpl. by apply IH, step_keeps_sound.
Qed.

(** Whatever the user does and however the requests settle: notes on the
    page are never an empty sequence, the notes error is never set together
    with notes, and the stored topic is always in trimmed form. *)
Theorem stored_notes_are_nonempty events :
  (∀ current, notes (ui (run events)) = Some current → current ≠ [])
  ∧ (is_Some (notes (ui (run events))) → error (ui (run events)) = None)
  ∧ topic (ui (run events)) = TopicInput.trim (topic (ui (run events))).
Proof.
  destruct (run_sound events) as (Hne & Herr & _ & _ & _ & _ & _ & _ & Htopic).
  by repeat split.
Qed.

(** The page is loading exactly while a request for notes or for their
    images is in flight, and there is never more than one of them; while it
    is loading there are no notes, no notes error, no topic input and no
    reset link; when it is not, the loading message is empty. *)
Theorem loading_iff_request_in_flight events :
  (isLoading (ui (run events)) = true ↔
     is_Some (notesRequest (run events)) ∨ is_Some (imagesRequest (run events)))
  ∧ ¬ (is_Some (notesRequest (run events)) ∧ is_Some (imagesRequest (run events)))
  ∧ (isLoading (ui (run events)) = true →
       notes (ui (run events)) = None
       ∧ error (ui (run events)) = None
       ∧ topicInput_shown (ui (run events)) = false
       ∧ reset_shown (ui (run events)) = false)
  ∧ (isLoading (ui (run events)) = false →
       loadingMessage (ui (run events)) = empty_string).
Proof.
  destruct (run_sound events) as (_ & _ & Hload & Hexcl & Hloading & Hmsg & _).
  split; [done|]. split; [done|]. split; [|done].
  intros Hbusy. destruct (Hloading Hbusy) as [Hnotes Herror].
  unfold topicInput_shown, reset_shown. rewrite Hbusy, Hnotes, !andb_false_r.
  by repeat split.
Qed.

(** A quiz that is on the page is an array with a first question whose
    [question] is truthy, so the quiz view always has a current question to
    show when it mounts. *)
Theorem quiz_on_page_has_a_question events q :
  renderContent (ui (run events)) = ShowQuiz q →
  ∃ props rest, q = VArr (VObj props :: rest)
                ∧ truthy (own_property props (str "question")) = true.
Proof.
  destruct (run_sound events) as (_ & _ & _ & _ & _ & _ & _ & Hquiz & _).
  unfold renderContent, quiz_shown.
  destruct (quizState (ui (run events))), (quiz (ui (run events))) as [q'|] eqn:Hq;
    try (destruct (notes (ui (run events)));
         [destruct (negb (isLoading (ui (run events))))|]; discriminate).
  destruct (truthy q').
  - intros [= <-]. by apply Hquiz.
  - destruct (notes (ui (run events)));
      [destruct (negb (isLoading (ui (run events))))|]; discriminate.
Qed.

Lemma quiz_on_page_has_a_question_witness :
  ∃ props rest, VArr [Examples.lone_question] = VArr (VObj props :: rest)
                ∧ truthy (own_property props (str "question")) = true.
Proof.
  apply (quiz_on_page_has_a_question Examples.quiz_on_screen (VArr [Examples.lone_question])).
  reflexivity.
Defined.

(** Wherever the reset link is on the page, clicking it gives back the
    initial state of the application. *)
Theorem reset_gives_initial_state events :
  reset_shown (ui (run events)) = true →
  handleReset (ui (run events)) = initial.
Proof.
  destruct (run_sound events) as (_ & _ & _ & _ & _ & Hmsg & _).
  unfold reset_shown. intros [_ Hidle%negb_true_iff]%andb_true_iff.
  specialize (Hmsg Hidle). unfold handleReset, initial.
  destruct (ui (run events)); simpl in *. by subst.
Qed.

Lemma reset_gives_initial_state_witness :
  handleReset (ui (run Examples.notes_on_screen)) = initial.
Proof.
  apply (reset_gives_initial_state Examples.notes_on_screen). reflexivity.
Defined.

(** The reset link stays on the page while a quiz is being generated.  If
    it is clicked then, the quiz that arrives later is still made active:
    the quiz is on the page, together with the topic input, although there
    are no notes and no topic any more. *)
Theorem reset_while_quiz_is_generated st current reply quizData :
  notes st = Some current → isLoading st = false →
  generateQuiz (topic st) current reply = Returned quizData →
  (handleStartQuiz_start st).2 = Some (topic st, current)
  ∧ reset_shown (handleStartQuiz_start st).1 = true
  ∧ renderContent
      (handleStartQuiz_settled (generateQuiz (topic st) current reply)
         (handleReset (handleStartQuiz_start st).1))
    = ShowQuiz quizData
  ∧ topicInput_shown
      (handleStartQuiz_settled (generateQuiz (topic st) current reply)
         (handleReset (handleStartQuiz_start st).1))
    = true
  ∧ notes (handleStartQuiz_settled (generateQuiz (topic st) current reply)
             (handleReset (handleStartQuiz_start st).1)) = None
  ∧ topic (handleStartQuiz_settled (generateQuiz (topic st) current reply)
             (handleReset (handleStartQuiz_start st).1)) = empty_string.
Proof.
  intros Hnotes Hidle Hq.
  destruct (generateQuiz_returned_valid _ _ _ _ Hq) as (props & rest & -> & _).
  rewrite Hq. unfold handleStartQuiz_start. rewrite Hnotes. cbn.
  unfold reset_shown, topicInput_shown, renderContent, quiz_shown. cbn.
  by rewrite Hnotes, Hidle.
Qed.

Lemma reset_while_quiz_is_generated_witness :
  renderContent (ui (run Examples.reset_before_quiz_arrives))
  = ShowQuiz (VArr [Examples.lone_question])
  ∧ topicInput_shown (ui (run Examples.reset_before_quiz_arrives)) = true.
Proof.
  pose proof (reset_while_quiz_is_generated
                (ui (run Examples.notes_on_screen))
                [Examples.forum_stored]
                (Json (VArr [Examples.lone_question]))
                (VArr [Examples.lone_question])
                eq_refl eq_refl eq_refl) as (_ & _ & Hquiz & Hinput & _).
  split.
  - etrans; [|exact Hquiz]. vm_compute. reflexivity.
  - etrans; [|exact Hinput]. vm_compute. reflexivity.
Defined.







End ApplicationRun.
